(** * Fragment assembler: Context, ExpressionParser, interpret, Interpreter

    A shallow embedding of the text-substitution core of [main.py]
    (classes [Context], [ExpressionParser], [Interpreter] and the function
    [interpret]) together with the properties of it that the specification
    states.

    Conventions.
    - A Python unicode string is a list of code points ([text]).
    - A raised exception is an [Err] result; the exception classes that the
      core can raise are the constructors of [exn].
    - [ExpressionParser] keeps its cursor in [self.idx]; the embedding passes
      the cursor explicitly and returns the new one.
    - The mutual recursion interpret -> parse -> operation -> interpret need
      not terminate (a fragment may include itself).  The Python runtime
      bounds it by its recursion limit; the embedding bounds the nesting of
      operation calls by a depth budget [d] and fails with [RecursionError]
      when the budget is used up.  Results are stated for every budget that
      is large enough. *)

From Stdlib Require Import NArith Ascii String.
From stdpp Require Import base option list gmap.

Local Open Scope N_scope.
Local Open Scope nat_scope.

(** ** Text *)

Abbreviation char := N (only parsing).
Abbreviation text := (list N) (only parsing).

(** An ASCII literal as a text. *)
Definition u (s : string) : text := map N_of_ascii (list_ascii_of_string s).

Definition LPAREN : char := 40%N.
Definition RPAREN : char := 41%N.
Definition COMMA : char := 44%N.
(** The section sign, U+00A7. *)
Definition SEC : char := 167%N.

(** [ch in "(,)"] *)
Definition structural (ch : char) : bool :=
  (ch =? LPAREN)%N || (ch =? COMMA)%N || (ch =? RPAREN)%N.

(** [unicode.isspace] for one code point: the characters that [strip()]
    removes (the white space table of the CPython runtime).  The properties
    below use of it only that a space is white space and that letters and
    punctuation are not. *)
Definition isspace (ch : char) : bool :=
  ((9 <=? ch) && (ch <=? 13))%N || ((28 <=? ch) && (ch <=? 32))%N
  || (ch =? 133)%N || (ch =? 160)%N || (ch =? 5760)%N
  || ((8192 <=? ch) && (ch <=? 8202))%N
  || (ch =? 8232)%N || (ch =? 8233)%N || (ch =? 8239)%N
  || (ch =? 8287)%N || (ch =? 12288)%N.

Fixpoint lstrip (s : text) : text :=
  match s with
  | ch :: s' => if isspace ch then lstrip s' else s
  | [] => []
  end.

Definition rstrip (s : text) : text := rev (lstrip (rev s)).

(** [s.strip()] *)
Definition strip (s : text) : text := rstrip (lstrip s).

(** [s[i:j]] for [0 <= i], [0 <= j] *)
Definition slice (s : text) (i j : nat) : text := take (j - i) (drop i s).

(** [s.split(sep)] for a one-character separator, as the first piece and the
    remaining ones: the result of [split] is never empty. *)
Fixpoint split1 (sep : char) (s : text) : text * list text :=
  match s with
  | [] => ([], [])
  | ch :: s' =>
      let (p, ps) := split1 sep s' in
      if (ch =? sep)%N then ([], p :: ps) else (ch :: p, ps)
  end.

Definition split (sep : char) (s : text) : list text :=
  let (p, ps) := split1 sep s in p :: ps.

(** ** Exceptions *)

Inductive exn : Type :=
| KeyError        (* Context.get: the key is bound nowhere in the chain *)
| AttributeError  (* getattr: the interpreter has no such operation *)
| TypeError       (* an operation called with the wrong number of arguments *)
| RecursionError. (* the depth budget of the call stack is used up *)

Inductive result (A : Type) : Type :=
| Ok (a : A)
| Err (x : exn).
Arguments Ok {A} a.
Arguments Err {A} x.

#[global] Instance result_ret : MRet result := fun A a => Ok a.

#[global] Instance result_bind : MBind result := fun A B k r =>
  match r with
  | Ok a => k a
  | Err x => Err x
  end.

(** ** Context *)

#[local] Unset Elimination Schemes.
Inductive Context : Type :=
| mkContext (parent : option Context) (fragments : gmap text text).

#[local] Set Elimination Schemes.

Definition parent (c : Context) : option Context :=
  match c with mkContext p _ => p end.

Definition fragments (c : Context) : gmap text text :=
  match c with mkContext _ f => f end.

(** [Context.put]: the context after the assignment. *)
Definition put (c : Context) (key frag : text) : Context :=
  mkContext (parent c) (<[key := frag]> (fragments c)).

(** [Context.get] *)
Fixpoint get (c : Context) (key : text) : result text :=
  match c with
  | mkContext p f =>
      match f !! key with
      | Some frag => Ok frag
      | None =>
          match p with
          | Some c' => get c' key
          | None => Err KeyError
          end
      end
  end.

(** The contexts that a lookup in [c] can visit: [c], its parent, ... up to
    the root. *)
Fixpoint chain (c : Context) : list Context :=
  match c with
  | mkContext p _ =>
      c :: match p with Some c' => chain c' | None => [] end
  end.

(** ** ExpressionParser *)

Section ExpressionParser.

(** [getattr(self.interpreter, v)(self.context, *args)], with the
    interpreter and the context of the parser fixed. *)
Variable dispatch : text -> list text -> result text.

(** [self.expression] *)
Variable e : text.

(** The number of leading characters of [s] that are not in "(,)". *)
Fixpoint atomic_prefix (s : text) : nat :=
  match s with
  | ch :: s' => if structural ch then 0 else S (atomic_prefix s')
  | [] => 0
  end.

(** [while i < l and e[i] not in "(,)": i += 1], started at [i = idx]. *)
Definition scan (idx : nat) : nat := idx + atomic_prefix (drop idx e).

(** [parse_at k idx] is [self.parse()] run with [self.idx = idx]; it
    returns the value together with the new [self.idx].  [collect k idx
    args] is the loop that gathers the arguments.  The budget [k] bounds
    the number of nested entries into these two; see
    [parse_never_uses_up_its_budget]. *)
Fixpoint parse_at (k : nat) (idx : nat) : result (text * nat) :=
  match k with
  | 0 => Err RecursionError
  | S k =>
      let i := scan idx in
      let v := strip (slice e idx i) in
      match e !! i with
      | None => Ok (v, i)                               (* i == l *)
      | Some ch =>
          if (ch =? COMMA)%N then Ok (v, S i)
          else if (ch =? RPAREN)%N then Ok (v, i)
          else                                          (* e[i] == '(' *)
            '(args, idx') ← collect k (S i) [];
            r ← dispatch v args;
            Ok (r, idx')
      end
  end
with collect (k : nat) (idx : nat) (args : list text)
    : result (list text * nat) :=
  match k with
  | 0 => Err RecursionError
  | S k =>
      match e !! idx with
      | None => Ok (args, idx)                          (* self.idx == l *)
      | Some ch =>
          if (ch =? RPAREN)%N then Ok (args, idx)
          else
            '(a, idx') ← parse_at k idx;
            collect k idx' (args ++ [a])
      end
  end.

(** [ExpressionParser(interpreter, context, e).parse()] *)
Definition parse : result text :=
  '(v, _) ← parse_at (2 * length e + 1) 0; Ok v.

End ExpressionParser.

(** ** interpret *)

(** The loop of [interpret] over the iterator [it] of the pieces; [output]
    is the list built so far.  Running out of pieces at either [next(it)]
    ends the loop. *)
Fixpoint interpret_loop (parse_expr : text -> result text)
    (it : list text) (output : list text) : result (list text) :=
  match it with
  | [] => Ok output
  | lit :: it =>
      let output := output ++ [lit] in
      match it with
      | [] => Ok output
      | expr :: it =>
          r ← parse_expr expr;
          interpret_loop parse_expr it (output ++ [r])
      end
  end.

(** An interpreter object as the parser and [interpret] use it: the bound
    call [getattr(interpreter, name)(context, *args)]. *)
Definition bound := text -> Context -> list text -> result text.

(** [interpret(interpreter, context, fragment_text)] *)
Definition interpret_with (interpreter : bound) (context : Context)
    (fragment_text : text) : result text :=
  output ← interpret_loop
              (fun expr => parse (fun v args => interpreter v context args) expr)
              (split SEC fragment_text) [];
  Ok (concat output).

(** ** Interpreter *)

(** A method receives [self] and then the arguments of the call. *)
Definition method := bound -> Context -> list text -> result text.

(** A class: the table of the methods that the class and its bases in the
    program define.  The attributes that every Python object inherits from
    [object] ([__doc__], [__class__], [__init__], [__eq__], ...) are not
    part of the table; [getattr] finds them, so what is said about a name
    missing from the table is said for names that are not of that form only
    (see [has_no_attribute]). *)
Definition class := text -> option method.

(** [getattr(obj, name)(context, *args)] for an object [obj] of class [cls],
    with [d] stack frames left for the call. *)
Fixpoint invoke (d : nat) (cls : class) (name : text) (context : Context)
    (args : list text) : result text :=
  match cls name with
  | None => Err AttributeError
  | Some m =>
      match d with
      | 0 => Err RecursionError
      | S d => m (invoke d cls) context args
      end
  end.

(** [interpret(interpreter, context, fragment_text)] for an interpreter of
    class [cls]. *)
Definition interpret (d : nat) (cls : class) : Context -> text -> result text :=
  interpret_with (invoke d cls).

Module Interpreter.

Definition include : method := fun self context args =>
  match args with
  | [key] => frag ← get context key; interpret_with self context frag
  | _ => Err TypeError
  end.

Definition include_conditional : method := fun self context args =>
  match args with
  | [key] =>
      match self (u "include") context [key] with
      | Err KeyError => Ok []
      | r => r
      end
  | _ => Err TypeError
  end.

Definition sec : method := fun self context args =>
  match args with
  | [] => Ok [SEC]
  | _ => Err TypeError
  end.

Definition var : method := fun self context args =>
  match args with
  | [key] =>
      match get context key with
      | Err KeyError => Ok []
      | r => r
      end
  | _ => Err TypeError
  end.

Definition methods : list (text * method) :=
  [ (u "include", include);
    (u "include_conditional", include_conditional);
    (u "sec", sec);
    (u "var", var) ].

End Interpreter.

(** Attribute lookup in a method table. *)
Fixpoint lookup_method (ms : list (text * method)) (name : text)
    : option method :=
  match ms with
  | [] => None
  | (n, m) :: ms => if decide (n = name) then Some m else lookup_method ms name
  end.

(** The class [Interpreter]. *)
Definition Interpreter : class := lookup_method Interpreter.methods.

(** A class derived from [base] that defines the methods [ms]. *)
Definition subclass (base : class) (ms : list (text * method)) : class :=
  fun name =>
    match lookup_method ms name with
    | Some m => Some m
    | None => base name
    end.

(** The interpreter of the nested-evaluation example: [foo(x) = x + "!"] and
    [bla(a, b) = a + "-" + b]. *)
Module TestInterpreter.

Definition foo : method := fun self context args =>
  match args with
  | [x] => Ok (x ++ u "!")
  | _ => Err TypeError
  end.

Definition bla : method := fun self context args =>
  match args with
  | [a; b] => Ok (a ++ u "-" ++ b)
  | _ => Err TypeError
  end.

End TestInterpreter.

Definition TestInterpreter : class :=
  subclass Interpreter
    [ (u "foo", TestInterpreter.foo); (u "bla", TestInterpreter.bla) ].

(** [Context()] *)
Definition root : Context := mkContext None ∅.

(** [s.count(ch)] *)
Fixpoint count (ch : char) (s : text) : nat :=
  match s with
  | [] => 0
  | ch' :: s' => if (ch' =? ch)%N then S (count ch s') else count ch s'
  end.

(** No character of [s] is one of "(,)". *)
Definition is_atomic (s : text) : bool :=
  forallb (fun ch => negb (structural ch)) s.

(** ** Shapes of texts and examples used in the statements *)

(** A root context and a child of it that rebinds one of its keys. *)
Definition example_parent : Context :=
  mkContext None {[ u "title" := u "Home"; u "lang" := u "de" ]}.

Definition example_child : Context :=
  mkContext (Some example_parent) {[ u "lang" := u "en" ]}.

(** The text [l0 § e1 § l1 § e2 § l2 ...] made of the literal span [l0] and
    the pairs [(e, l)] of an expression span and the literal span after
    it. *)
Definition spans_text (l0 : text) (els : list (text * text)) : text :=
  l0 ++ concat (map (fun el => SEC :: el.1 ++ SEC :: el.2) els).

(** Neither span of the pair contains the delimiter. *)
Definition sec_free (el : text * text) : Prop :=
  count SEC el.1 = 0 /\ count SEC el.2 = 0.

(** The text that follows an atomic token ends the token: it is empty or
    starts with one of "(,)". *)
Definition stops (tail : text) : Prop :=
  match tail with
  | [] => True
  | ch :: _ => structural ch = true
  end.

(** The text that ends an argument list: the end of the input or ")". *)
Definition closes (tail : text) : Prop :=
  match tail with
  | [] => True
  | ch :: _ => ch = RPAREN
  end.

(** The arguments [a1, ..., an,] each followed by its comma. *)
Definition flat (args : list text) : text :=
  concat (map (fun a => a ++ [COMMA]) args).

(** The value of the last argument, which no comma follows; an empty one is
    no argument. *)
Definition last_arg (last : text) : list text :=
  match last with
  | [] => []
  | _ => [strip last]
  end.

(** A context whose fragment "page" includes a key that is bound nowhere. *)
Definition example_page : Context :=
  mkContext None
    {[ u "page" := u "abc" ++ SEC :: u "include(missing)" ++ [SEC] ]}.

(** An interpreter that renders the call it receives, as
    [name[arg1;arg2;...]]. *)
Definition record : text -> list text -> result text := fun v args =>
  Ok (v ++ u "[" ++ concat (map (fun a => a ++ u ";") args) ++ u "]").

(** ** Further definitions used in the statements *)




(** The bindings that a lookup in [c] can see: its own and, where it has
    none, those of the parent chain. *)
Fixpoint visible (c : Context) : gmap text text :=
  match c with
  | mkContext p f =>
      f ∪ match p with Some c' => visible c' | None => ∅ end
  end.

(** Every character of [ws] is white space. *)
Definition all_space (ws : text) : bool := forallb isspace ws.

(** The text "§name(key)§". *)
Definition call_text (name key : text) : text :=
  SEC :: (name ++ LPAREN :: key ++ [RPAREN]) ++ [SEC].

(** A root context whose fragment "loop" includes itself. *)
Definition example_cycle : Context :=
  mkContext None {[ u "loop" := call_text (u "include") (u "loop") ]}.

(** The text after a top-level atomic token: nothing, or something that
    starts with "," or ")". *)
Definition ends_atom (tail : text) : Prop :=
  match tail with
  | [] => True
  | ch :: _ => ch = COMMA \/ ch = RPAREN
  end.

(** A token written with white space around it: the white space before, the
    token, the white space after. *)
Definition pad (t : text * text * text) : text := t.1.1 ++ t.1.2 ++ t.2.

Definition core (t : text * text * text) : text := t.1.2.

Definition well_padded (t : text * text * text) : Prop :=
  all_space t.1.1 = true /\ is_atomic t.1.2 = true /\ all_space t.2 = true.

(** ** MyInterpreter: localization *)

Module MyInterpreter.

(** [LANG_TO_PROJ] *)
Definition LANG_TO_PROJ (lang : text) : option (text -> text -> text) :=
  if decide (lang = u "de") then Some (fun de en => de)
  else if decide (lang = u "en") then Some (fun de en => en)
  else None.

(** [MyInterpreter.dic], for the dictionaries [self.dic_] (one per
    language). *)
Definition dic (dic_ : gmap text (gmap text text)) : method :=
  fun self context args =>
    match args with
    | [key] =>
        lang ← get context (u "lang");
        match dic_ !! lang with
        | None => Err KeyError
        | Some d =>
            match d !! key with
            | None => Err KeyError
            | Some v => Ok v
            end
        end
    | _ => Err TypeError
    end.

(** [MyInterpreter.localize] *)
Definition localize : method := fun self context args =>
  match args with
  | [de; en] =>
      lang ← get context (u "lang");
      match LANG_TO_PROJ lang with
      | None => Err KeyError
      | Some proj => Ok (proj de en)
      end
  | _ => Err TypeError
  end.

End MyInterpreter.

(** A class derived from [Interpreter] with the operations [dic] and
    [localize] of [MyInterpreter]. *)
Definition Localizing (dic_ : gmap text (gmap text text)) : class :=
  subclass Interpreter
    [ (u "dic", MyInterpreter.dic dic_);
      (u "localize", MyInterpreter.localize) ].

(** Month names, as in dict_de.json and dict_en.json. *)
Definition example_dic : gmap text (gmap text text) :=
  {[ u "de" := {[ u "may" := u "Mai" ]};
     u "en" := {[ u "may" := u "May" ]} ]}.

(** * Properties *)

(** ** Context *)

Lemma Context_chain_ind (P : Context -> Prop) :
  (forall f, P (mkContext None f)) ->
  (forall p f, P p -> P (mkContext (Some p) f)) ->
  forall c, P c.
Proof.
  intros Hroot Hchild. fix IH 1.
  intros [[p|] f]; [apply Hchild, IH | apply Hroot].
Qed.

Lemma get_local (c : Context) (key frag : text) :
  fragments c !! key = Some frag -> get c key = Ok frag.
Proof. destruct c as [p f]; simpl. by intros ->. Qed.

Lemma get_parent (c p : Context) (key : text) :
  fragments c !! key = None -> parent c = Some p -> get c key = get p key.
Proof. destruct c as [q f]; simpl. by intros -> ->. Qed.

Lemma get_root (c : Context) (key : text) :
  fragments c !! key = None -> parent c = None -> get c key = Err KeyError.
Proof. destruct c as [q f]; simpl. by intros -> ->. Qed.

Lemma get_only_KeyError (c : Context) (key : text) (x : exn) :
  get c key = Err x -> x = KeyError.
Proof.
  induction c as [f | p f IH] using Context_chain_ind; simpl;
    destruct (f !! key); naive_solver.
Qed.

Lemma get_KeyError_iff (c : Context) (key : text) :
  get c key = Err KeyError <->
  forall c', c' ∈ chain c -> fragments c' !! key = None.
Proof.
  induction c as [f | p f IH] using Context_chain_ind.
  - simpl. split.
    + intros H c' ->%list_elem_of_singleton. simpl. by destruct (f !! key).
    + intros H. specialize (H _ (list_elem_of_here _ _)). simpl in H.
      by rewrite H.
  - change (chain (mkContext (Some p) f))
      with (mkContext (Some p) f :: chain p).
    simpl. split.
    + intros H c' [-> | Hin]%elem_of_cons.
      * simpl. by destruct (f !! key).
      * destruct (f !! key); [done |]. by apply IH.
    + intros H.
      pose proof (H _ (list_elem_of_here _ _)) as Hf. simpl in Hf. rewrite Hf.
      apply IH. intros c' Hin. apply H. by apply list_elem_of_further.
Qed.

(** C2: [Context.get] returns the local binding when there is one, otherwise
    the result of the lookup in the parent, and it raises KeyError (its only
    failure) exactly when no context of the parent chain, the root included,
    binds the key; so a child without a local binding agrees with its
    parent. *)
Theorem C2_get_follows_parent_chain (c : Context) (key : text) :
  (forall frag, fragments c !! key = Some frag -> get c key = Ok frag) /\
  (forall p, fragments c !! key = None -> parent c = Some p ->
             get c key = get p key) /\
  (get c key = Err KeyError <->
   forall c', c' ∈ chain c -> fragments c' !! key = None) /\
  (forall x, get c key = Err x -> x = KeyError).
Proof.
  split; [| split; [| split]].
  - intros frag. apply get_local.
  - intros p. apply get_parent.
  - apply get_KeyError_iff.
  - intros x. apply get_only_KeyError.
Qed.

Lemma C2_get_follows_parent_chain_witness :
  get example_child (u "lang") = Ok (u "en") /\
  get example_child (u "title") = get example_parent (u "title") /\
  get example_child (u "main") = Err KeyError.
Proof.
  pose proof (C2_get_follows_parent_chain example_child (u "lang"))
    as (Hlocal & _).
  pose proof (C2_get_follows_parent_chain example_child (u "title"))
    as (_ & Hparent & _).
  pose proof (C2_get_follows_parent_chain example_child (u "main"))
    as (_ & _ & Hfail & _).
  split; [| split].
  - apply Hlocal. reflexivity.
  - apply Hparent; reflexivity.
  - apply Hfail. intros c' Hin.
    change (chain example_child) with [example_child; example_parent] in Hin.
    apply elem_of_cons in Hin as [-> | ->%list_elem_of_singleton];
      reflexivity.
Defined.

(** ** split *)

Lemma split1_no_sep (sep : char) (s : text) :
  count sep s = 0 -> split1 sep s = (s, []).
Proof.
  induction s as [| ch s IH]; simpl; [done |].
  destruct (N.eqb_spec ch sep); [done |].
  intros H. by rewrite IH.
Qed.

Lemma split_no_sep (sep : char) (s : text) :
  count sep s = 0 -> split sep s = [s].
Proof. intros H. unfold split. by rewrite split1_no_sep. Qed.

Lemma split_app_sep (sep : char) (p rest : text) :
  count sep p = 0 -> split sep (p ++ sep :: rest) = p :: split sep rest.
Proof.
  unfold split. induction p as [| ch p IH]; simpl.
  - intros _. rewrite N.eqb_refl. by destruct (split1 sep rest).
  - destruct (N.eqb_spec ch sep); [done |].
    intros H. specialize (IH H).
    destruct (split1 sep (p ++ sep :: rest)) as [q qs].
    destruct (split1 sep rest) as [r rs]. by simplify_eq.
Qed.

Lemma split_snoc (sep : char) (t e : text) :
  count sep e = 0 -> split sep (t ++ sep :: e) = split sep t ++ [e].
Proof.
  intros He. unfold split. induction t as [| ch t IH]; simpl.
  - rewrite N.eqb_refl. by rewrite split1_no_sep.
  - destruct (split1 sep (t ++ sep :: e)) as [q qs].
    destruct (split1 sep t) as [r rs].
    destruct (N.eqb_spec ch sep); simpl in *; by simplify_eq.
Qed.

Lemma length_split (sep : char) (t : text) :
  length (split sep t) = S (count sep t).
Proof.
  unfold split. induction t as [| ch t IH]; simpl; [done |].
  destruct (split1 sep t) as [r rs].
  destruct (N.eqb_spec ch sep); simpl in *; lia.
Qed.

Lemma count_app (ch : char) (s t : text) :
  count ch (s ++ t) = count ch s + count ch t.
Proof.
  induction s as [| ch' s IH]; simpl; [done |].
  destruct (ch' =? ch)%N; lia.
Qed.

(** ** interpret *)

Lemma split_spans_text (l0 : text) (els : list (text * text)) :
  count SEC l0 = 0 -> Forall sec_free els ->
  split SEC (spans_text l0 els)
  = l0 :: concat (map (fun el => [el.1; el.2]) els).
Proof.
  unfold spans_text. intros Hl0 Hels. revert l0 Hl0.
  induction Hels as [| [e l] els [He Hl] _ IH]; intros l0 Hl0; simpl in *.
  - rewrite app_nil_r. by apply split_no_sep.
  - rewrite split_app_sep by done. f_equal.
    rewrite <- app_assoc. simpl.
    rewrite split_app_sep by done. f_equal. by apply IH.
Qed.

Lemma interpret_loop_spans (f : text -> result text) (val : text -> text)
    (l0 : text) (els : list (text * text)) (output : list text) :
  Forall (fun el => f el.1 = Ok (val el.1)) els ->
  interpret_loop f (l0 :: concat (map (fun el => [el.1; el.2]) els)) output
  = Ok (output ++ l0 :: concat (map (fun el => [val el.1; el.2]) els)).
Proof.
  intros Hels. revert l0 output.
  induction Hels as [| [e l] els He _ IH]; intros l0 output; simpl in *.
  - done.
  - rewrite He. simpl. rewrite IH. by rewrite <- !app_assoc.
Qed.

Lemma interpret_loop_snoc (f : text -> result text) (it : list text)
    (e : text) (output : list text) :
  Nat.odd (length it) = true ->
  interpret_loop f (it ++ [e]) output
  = (out ← interpret_loop f it output; r ← f e; Ok (out ++ [r])).
Proof.
  revert output.
  induction it as [it IH] using (induction_ltof1 _ (@length text)).
  unfold ltof in IH. intros output Hodd.
  destruct it as [| lit [| expr it]]; [done | done |].
  change (interpret_loop f ((lit :: expr :: it) ++ [e]) output)
    with (r ← f expr; interpret_loop f (it ++ [e]) ((output ++ [lit]) ++ [r])).
  change (interpret_loop f (lit :: expr :: it) output)
    with (r ← f expr; interpret_loop f it ((output ++ [lit]) ++ [r])).
  destruct (f expr) as [r | x]; simpl; [| done].
  apply IH; [simpl; lia |].
  simpl in Hodd. by rewrite Nat.odd_succ, Nat.even_succ in Hodd.
Qed.

Lemma interpret_with_no_sec (interpreter : bound) (context : Context)
    (t : text) :
  count SEC t = 0 -> interpret_with interpreter context t = Ok t.
Proof.
  intros H. unfold interpret_with. rewrite split_no_sep by done.
  simpl. by rewrite app_nil_r.
Qed.

(** C7: on a text without delimiter, [interpret] is the identity, for every
    interpreter, context and depth budget; hence a delimiter-free output of
    [interpret] is returned unchanged when it is interpreted again. *)
Theorem C7_identity_on_delimiter_free_text (d : nat) (cls : class)
    (context : Context) (t : text) :
  (count SEC t = 0 -> interpret d cls context t = Ok t) /\
  (forall d' context' out,
      interpret d' cls context' t = Ok out -> count SEC out = 0 ->
      interpret d cls context out = Ok out).
Proof.
  split.
  - apply interpret_with_no_sec.
  - intros d' context' out _. apply interpret_with_no_sec.
Qed.

Lemma C7_identity_on_delimiter_free_text_witness :
  interpret 0 Interpreter root (u "<p>no expression</p>")
  = Ok (u "<p>no expression</p>") /\
  interpret 0 Interpreter root (u "a-b") = Ok (u "a-b").
Proof.
  split.
  - apply (C7_identity_on_delimiter_free_text 0 Interpreter root). reflexivity.
  - apply (C7_identity_on_delimiter_free_text 0 Interpreter root
             (SEC :: u "var(k)" ++ SEC :: u "a-b")
           ) with (d' := 1) (context' := root); reflexivity.
Defined.

(** C8: for every context, the text "§sec()§" evaluates to the delimiter
    character alone (one stack frame is enough for the call of [sec]). *)
Theorem C8_sec_yields_delimiter (d : nat) (context : Context) :
  interpret (S d) Interpreter context (SEC :: u "sec()" ++ [SEC]) = Ok [SEC].
Proof. reflexivity. Qed.

(** C10: [interpret] splits its input once.  For a text
    [l0 § e1 § l1 ... § en § ln] whose spans contain no delimiter and whose
    expression spans evaluate to [val e1 ... val en], the output is
    [l0 (val e1) l1 ... (val en) ln]: every value is copied verbatim,
    delimiters in it included, and is not scanned again. *)
Theorem C10_single_splitting_pass (interpreter : bound) (context : Context)
    (val : text -> text) (l0 : text) (els : list (text * text)) :
  count SEC l0 = 0 ->
  Forall sec_free els ->
  Forall (fun el =>
            parse (fun v args => interpreter v context args) el.1
            = Ok (val el.1)) els ->
  interpret_with interpreter context (spans_text l0 els)
  = Ok (l0 ++ concat (map (fun el => val el.1 ++ el.2) els)).
Proof.
  intros Hl0 Hfree Hval. unfold interpret_with.
  rewrite split_spans_text by done.
  rewrite (interpret_loop_spans _ val) by done. simpl. do 2 f_equal.
  clear. induction els as [| el els IH]; simpl; [done |].
  by rewrite IH, <- app_assoc.
Qed.

Lemma C10_single_splitting_pass_witness :
  interpret 1 Interpreter root
    (SEC :: u "sec()" ++ SEC :: u "include(x)" ++ SEC :: u "sec()" ++ [SEC])
  = Ok (SEC :: u "include(x)" ++ [SEC]).
Proof.
  apply (C10_single_splitting_pass (invoke 1 Interpreter) root
           (fun _ => [SEC]) [] [(u "sec()", u "include(x)"); (u "sec()", [])]).
  - reflexivity.
  - repeat constructor.
  - repeat constructor.
Defined.

Lemma interpret_with_snoc (interpreter : bound) (context : Context)
    (t e : text) :
  Nat.even (count SEC t) = true -> count SEC e = 0 ->
  interpret_with interpreter context (t ++ SEC :: e)
  = (out ← interpret_with interpreter context t;
     r ← parse (fun v args => interpreter v context args) e;
     Ok (out ++ r)).
Proof.
  intros Heven He. unfold interpret_with.
  rewrite split_snoc by done.
  rewrite interpret_loop_snoc
    by (by rewrite length_split, Nat.odd_succ).
  destruct (interpret_loop _ (split SEC t) []) as [out | x]; simpl; [| done].
  destruct (parse _ e) as [r | x]; simpl; [| done].
  by rewrite concat_app; simpl; rewrite app_nil_r.
Qed.

(** C3 (as the code has it): a text with an odd number of delimiters is not
    rejected.  The text after the last delimiter is taken as one more
    expression span: [t § e], where [t] has an even number of delimiters and
    [e] none, evaluates to the output of [t] followed by the value of the
    expression [e], and it fails only if one of these two fails. *)
Theorem C3_odd_delimiters_trailing_span_evaluated (interpreter : bound)
    (context : Context) (t e : text) :
  Nat.even (count SEC t) = true -> count SEC e = 0 ->
  Nat.odd (count SEC (t ++ SEC :: e)) = true /\
  interpret_with interpreter context (t ++ SEC :: e)
  = (out ← interpret_with interpreter context t;
     r ← parse (fun v args => interpreter v context args) e;
     Ok (out ++ r)).
Proof.
  intros Heven He. split; [| by apply interpret_with_snoc].
  rewrite count_app. simpl. rewrite He, Nat.add_1_r.
  by rewrite Nat.odd_succ.
Qed.

Lemma C3_odd_delimiters_trailing_span_evaluated_witness :
  interpret 0 Interpreter root (u "a" ++ SEC :: u " b ") = Ok (u "ab").
Proof.
  pose proof (C3_odd_delimiters_trailing_span_evaluated
                (invoke 0 Interpreter) root (u "a") (u " b ")) as H.
  destruct H as [_ H]; [reflexivity | reflexivity |].
  unfold interpret. rewrite H. reflexivity.
Defined.

(** C3, counterexample: "a§b" contains one delimiter and [interpret] returns
    "ab" for it instead of failing. *)
Lemma C3_counterexample :
  ~ (forall (d : nat) (cls : class) (context : Context) (t : text),
        Nat.odd (count SEC t) = true ->
        exists x, interpret d cls context t = Err x).
Proof.
  intros H.
  destruct (H 0 Interpreter root (u "a" ++ SEC :: u "b") eq_refl) as [x Hx].
  discriminate Hx.
Qed.

(** ** ExpressionParser *)

Lemma is_atomic_cons (ch : char) (s : text) :
  is_atomic (ch :: s) = true -> structural ch = false /\ is_atomic s = true.
Proof.
  unfold is_atomic. simpl. intros [H1 H2]%andb_true_iff.
  by apply negb_true_iff in H1.
Qed.

Lemma closes_stops (tail : text) : closes tail -> stops tail.
Proof. destruct tail as [| ch tail]; simpl; [done | by intros ->]. Qed.

Lemma atomic_prefix_app (a tail : text) :
  is_atomic a = true -> stops tail -> atomic_prefix (a ++ tail) = length a.
Proof.
  intros Ha Htail. induction a as [| ch a IH]; simpl.
  - destruct tail as [| ch tail]; simpl in *; [done | by rewrite Htail].
  - apply is_atomic_cons in Ha as [-> Ha]. by rewrite IH.
Qed.

Lemma lookup_app_length (pre s : text) : (pre ++ s) !! length pre = head s.
Proof.
  destruct s as [| ch s]; simpl.
  - rewrite app_nil_r. by apply lookup_ge_None.
  - by apply list_lookup_middle.
Qed.

Lemma scan_at (pre a tail : text) :
  is_atomic a = true -> stops tail ->
  scan (pre ++ a ++ tail) (length pre) = length pre + length a.
Proof.
  intros Ha Htail. unfold scan.
  by rewrite drop_app_length, atomic_prefix_app.
Qed.

Lemma slice_at (pre a tail : text) :
  slice (pre ++ a ++ tail) (length pre) (length pre + length a) = a.
Proof.
  unfold slice. rewrite drop_app_length.
  replace (length pre + length a - length pre) with (length a) by lia.
  by rewrite take_app_length.
Qed.

Lemma lookup_at (pre a tail : text) :
  (pre ++ a ++ tail) !! (length pre + length a) = head tail.
Proof. by rewrite app_assoc, <- length_app, lookup_app_length. Qed.

Lemma length_flat (args : list text) : length args <= length (flat args).
Proof.
  unfold flat. induction args as [| a args IH]; simpl; [done |].
  rewrite !length_app. simpl. lia.
Qed.

Section ParserProperties.

Variable dispatch : text -> list text -> result text.

Lemma collect_S (e : text) (k idx : nat) (args : list text) :
  collect dispatch e (S k) idx args
  = match e !! idx with
    | None => Ok (args, idx)
    | Some ch =>
        if (ch =? RPAREN)%N then Ok (args, idx)
        else
          '(a, idx') ← parse_at dispatch e k idx;
          collect dispatch e k idx' (args ++ [a])
    end.
Proof. reflexivity. Qed.

Lemma parse_at_S (e : text) (k idx : nat) :
  parse_at dispatch e (S k) idx
  = match e !! scan e idx with
    | None => Ok (strip (slice e idx (scan e idx)), scan e idx)
    | Some ch =>
        if (ch =? COMMA)%N
        then Ok (strip (slice e idx (scan e idx)), S (scan e idx))
        else if (ch =? RPAREN)%N
        then Ok (strip (slice e idx (scan e idx)), scan e idx)
        else
          '(args, idx') ← collect dispatch e k (S (scan e idx)) [];
          r ← dispatch (strip (slice e idx (scan e idx))) args;
          Ok (r, idx')
    end.
Proof. reflexivity. Qed.

(** One run of [parse()] at the start of an atomic token [a]. *)
Lemma parse_at_token (e : text) (k : nat) (pre a tail : text) :
  e = pre ++ a ++ tail ->
  is_atomic a = true -> stops tail ->
  parse_at dispatch e (S k) (length pre)
  = match tail with
    | [] => Ok (strip a, length pre + length a)
    | ch :: _ =>
        if (ch =? COMMA)%N then Ok (strip a, S (length pre + length a))
        else if (ch =? RPAREN)%N then Ok (strip a, length pre + length a)
        else
          '(args, idx') ←
            collect dispatch e k (S (length pre + length a)) [];
          r ← dispatch (strip a) args;
          Ok (r, idx')
    end.
Proof.
  intros -> Ha Htail. cbn [parse_at].
  rewrite scan_at, slice_at, lookup_at by done.
  by destruct tail.
Qed.

Lemma not_rparen (ch : char) :
  structural ch = false -> (ch =? RPAREN)%N = false.
Proof.
  unfold structural. destruct (ch =? RPAREN)%N; [| done].
  by rewrite !orb_true_r.
Qed.

(** The argument loop at the last argument, which no comma follows. *)
Lemma collect_last (e : text) (k : nat) (pre last tail : text)
    (args : list text) :
  e = pre ++ last ++ tail ->
  is_atomic last = true -> closes tail ->
  collect dispatch e (S (S k)) (length pre) args
  = Ok (args ++ last_arg last, length pre + length last).
Proof.
  intros He Hlast Htail. rewrite collect_S.
  destruct last as [| ch last].
  - rewrite He, lookup_app_length. simpl.
    rewrite app_nil_r, Nat.add_0_r.
    destruct tail as [| ch tail]; simpl in *; [done |]. by subst ch.
  - pose proof Hlast as [Hch%not_rparen _]%is_atomic_cons.
    replace (e !! length pre) with (Some ch)
      by (by rewrite He, lookup_app_length).
    rewrite Hch.
    rewrite (parse_at_token e k pre (ch :: last) tail)
      by (done || by apply closes_stops).
    assert (collect dispatch e (S k) (length pre + length (ch :: last))
              (args ++ [strip (ch :: last)])
            = Ok (args ++ [strip (ch :: last)],
                  length pre + length (ch :: last))) as Hexit.
    { rewrite collect_S, He, lookup_at.
      destruct tail as [| ch' tail]; simpl in *; [done |]. by subst ch'. }
    destruct tail as [| ch' tail]; simpl in Htail.
    + exact Hexit.
    + subst ch'. exact Hexit.
Qed.

(** The argument loop over arguments that are atomic tokens. *)
Lemma collect_flat (atoms : list text) :
  forall (e : text) (k : nat) (pre last tail : text) (args : list text),
    e = pre ++ flat atoms ++ last ++ tail ->
    Forall (fun a => is_atomic a = true) atoms ->
    is_atomic last = true -> closes tail ->
    length atoms + 2 <= k ->
    collect dispatch e k (length pre) args
    = Ok (args ++ map strip atoms ++ last_arg last,
          length pre + length (flat atoms) + length last).
Proof.
  induction atoms as [| a atoms IH];
    intros e k pre last tail args He Hatoms Hlast Htail Hk.
  - destruct k as [| [| k]]; [simpl in Hk; lia.. |].
    rewrite (collect_last e k pre last tail) by done.
    simpl. by rewrite Nat.add_0_r.
  - destruct k as [| [| k]]; [simpl in Hk; lia.. |].
    apply Forall_cons in Hatoms as [Ha Hatoms].
    assert (e = pre ++ a ++ COMMA :: (flat atoms ++ last ++ tail)) as He1.
    { rewrite He. unfold flat. simpl. by rewrite <- !app_assoc. }
    assert (e = (pre ++ a ++ [COMMA]) ++ flat atoms ++ last ++ tail) as He2.
    { rewrite He1. by rewrite <- !app_assoc. }
    rewrite collect_S.
    replace (e !! length pre) with (Some (default COMMA (head a)))
      by (rewrite He1, lookup_app_length; by destruct a).
    assert ((default COMMA (head a) =? RPAREN)%N = false) as ->.
    { destruct a as [| ch a]; [done |]. simpl.
      apply is_atomic_cons in Ha as [Hch _]. by apply not_rparen. }
    rewrite (parse_at_token e k pre a _ He1) by done.
    change (COMMA =? COMMA)%N with true. cbn [mbind result_bind].
    replace (S (length pre + length a)) with (length (pre ++ a ++ [COMMA]))
      by (rewrite !length_app; simpl; lia).
    rewrite (IH e (S k) _ last tail _ He2) by (done || simpl in Hk; lia).
    f_equal. f_equal.
    + simpl. by rewrite <- app_assoc.
    + unfold flat. simpl. rewrite !length_app. simpl. lia.
Qed.

(** A composite expression whose arguments are atomic tokens: the
    operation named by the head token is called with the stripped
    arguments, in order, whether the argument list is closed by ")" or the
    input ends. *)
Lemma parse_flat (h last tail : text) (atoms : list text) :
  is_atomic h = true ->
  Forall (fun a => is_atomic a = true) atoms ->
  is_atomic last = true -> closes tail ->
  parse dispatch (h ++ LPAREN :: flat atoms ++ last ++ tail)
  = dispatch (strip h) (map strip atoms ++ last_arg last).
Proof.
  intros Hh Hatoms Hlast Htail. unfold parse.
  remember (h ++ LPAREN :: flat atoms ++ last ++ tail) as e eqn:He.
  replace (2 * length e + 1) with (S (2 * length e)) by lia.
  rewrite (parse_at_token e _ [] h _ He) by done.
  change (LPAREN =? COMMA)%N with false.
  change (LPAREN =? RPAREN)%N with false. cbn iota.
  assert (e = (h ++ [LPAREN]) ++ flat atoms ++ last ++ tail) as He2.
  { rewrite He. by rewrite <- app_assoc. }
  change (length [] + length h) with (length h).
  replace (S (length h)) with (length (h ++ [LPAREN]))
    by (rewrite length_app; simpl; lia).
  rewrite (collect_flat atoms e _ _ last tail [] He2) by
    (done || (rewrite He, !length_app; simpl; rewrite !length_app;
              pose proof (length_flat atoms); lia)).
  cbn [mbind result_bind]. by destruct (dispatch _ _).
Qed.

End ParserProperties.

(** A composite expression in general: the arguments are collected first,
    then the operation named by the head token is called. *)
Lemma parse_composite (dispatch : text -> list text -> result text)
    (h rest : text) :
  is_atomic h = true ->
  let e := h ++ LPAREN :: rest in
  parse dispatch e
  = ('(args, _) ← collect dispatch e (2 * length e) (S (length h)) [];
     dispatch (strip h) args).
Proof.
  intros Hh e. unfold parse.
  replace (2 * length e + 1) with (S (2 * length e)) by lia.
  rewrite (parse_at_token dispatch e _ [] h (LPAREN :: rest)) by done.
  change (LPAREN =? COMMA)%N with false.
  change (LPAREN =? RPAREN)%N with false. cbn iota.
  change (length [] + length h) with (length h).
  destruct (collect _ _ _ _ _) as [[args idx'] | x]; simpl; [| done].
  by destruct (dispatch _ _).
Qed.

(** ** interpret on a text with one expression span *)

Lemma interpret_with_one_span (interpreter : bound) (context : Context)
    (l0 e l1 : text) :
  count SEC l0 = 0 -> count SEC e = 0 -> count SEC l1 = 0 ->
  interpret_with interpreter context (l0 ++ SEC :: e ++ SEC :: l1)
  = (r ← parse (fun v args => interpreter v context args) e;
     Ok (l0 ++ r ++ l1)).
Proof.
  intros Hl0 He Hl1. unfold interpret_with.
  rewrite !split_app_sep, split_no_sep by done. simpl.
  destruct (parse _ e) as [r | x]; simpl; [| done].
  by rewrite app_nil_r.
Qed.

(** ** Interpreter *)

Lemma invoke_S (d : nat) (cls : class) (name : text) (context : Context)
    (args : list text) :
  invoke (S d) cls name context args
  = match cls name with
    | None => Err AttributeError
    | Some m => m (invoke d cls) context args
    end.
Proof. reflexivity. Qed.


Lemma include_conditional_KeyError (self : bound) (context : Context)
    (key : text) :
  self (u "include") context [key] = Err KeyError ->
  Interpreter.include_conditional self context [key] = Ok [].
Proof. unfold Interpreter.include_conditional. by intros ->. Qed.


Lemma last_arg_nonempty (key : text) : key <> [] -> last_arg key = [strip key].
Proof. by destruct key. Qed.

Lemma Interpreter_include :
  Interpreter (u "include") = Some Interpreter.include.
Proof. reflexivity. Qed.

Lemma Interpreter_include_conditional :
  Interpreter (u "include_conditional") = Some Interpreter.include_conditional.
Proof. reflexivity. Qed.

Lemma invoke_include (d : nat) (context : Context) (key : text) :
  invoke (S d) Interpreter (u "include") context [key]
  = (frag ← get context key; interpret d Interpreter context frag).
Proof. by rewrite invoke_S, Interpreter_include. Qed.

Lemma invoke_include_conditional (d : nat) (context : Context) (key : text) :
  invoke (S d) Interpreter (u "include_conditional") context [key]
  = match invoke d Interpreter (u "include") context [key] with
    | Err KeyError => Ok []
    | r => r
    end.
Proof. by rewrite invoke_S, Interpreter_include_conditional. Qed.

(** C4 (as the code has it): when the input ends inside an argument list,
    [parse()] does not fail; it calls the operation with the arguments
    collected so far.  For atomic arguments [a1, ..., an, last] the call is
    the one that the same text closed by ")" gives. *)
Theorem C4_unclosed_argument_list_is_dispatched
    (dispatch : text -> list text -> result text)
    (h last : text) (atoms : list text) :
  is_atomic h = true ->
  Forall (fun a => is_atomic a = true) atoms ->
  is_atomic last = true ->
  parse dispatch (h ++ LPAREN :: flat atoms ++ last)
  = dispatch (strip h) (map strip atoms ++ last_arg last) /\
  parse dispatch (h ++ LPAREN :: flat atoms ++ last)
  = parse dispatch (h ++ LPAREN :: flat atoms ++ last ++ [RPAREN]).
Proof.
  intros Hh Hatoms Hlast.
  pose proof (parse_flat dispatch h last [] atoms Hh Hatoms Hlast I) as Hopen.
  rewrite app_nil_r in Hopen. split; [done |].
  rewrite Hopen. symmetry. by apply parse_flat.
Qed.

Lemma C4_unclosed_argument_list_is_dispatched_witness :
  parse (fun v args => invoke 1 TestInterpreter v root args) (u "bla(a,b")
  = Ok (u "a-b").
Proof.
  pose proof (C4_unclosed_argument_list_is_dispatched
                (fun v args => invoke 1 TestInterpreter v root args)
                (u "bla") (u "b") [u "a"]) as [H _].
  - reflexivity.
  - repeat constructor.
  - reflexivity.
  - exact H.
Defined.

(** C4, counterexample: "bla(a,b" has an open argument list that the input
    never closes, and [parse()] returns "a-b" for it instead of failing. *)
Lemma C4_counterexample :
  ~ (forall (dispatch : text -> list text -> result text) (e : text),
        count RPAREN e < count LPAREN e ->
        exists x, parse dispatch e = Err x).
Proof.
  intros H.
  destruct (H (fun v args => invoke 1 TestInterpreter v root args)
              (u "bla(a,b")) as [x Hx].
  - vm_compute. lia.
  - discriminate Hx.
Qed.

(** The text "§name(key)§" calls the operation [name] with the one argument
    [key]. *)
Lemma interpret_call (d : nat) (cls : class) (context : Context)
    (name key : text) :
  key <> [] ->
  is_atomic name = true -> is_atomic key = true ->
  count SEC name = 0 -> count SEC key = 0 ->
  interpret d cls context (SEC :: (name ++ LPAREN :: key ++ [RPAREN]) ++ [SEC])
  = (r ← invoke d cls (strip name) context [strip key]; Ok r).
Proof.
  intros Hne Hname Hkey Hsname Hskey. unfold interpret.
  change (SEC :: (name ++ LPAREN :: key ++ [RPAREN]) ++ [SEC])
    with ([] ++ SEC :: (name ++ LPAREN :: key ++ [RPAREN]) ++ SEC :: []).
  rewrite interpret_with_one_span; [| done | | done].
  - pose proof (parse_flat (fun v args => invoke d cls v context args)
                  name key [RPAREN] [] Hname (Forall_nil_2 _) Hkey eq_refl)
      as Hp.
    change (flat [] ++ key ++ [RPAREN]) with (key ++ [RPAREN]) in Hp.
    rewrite Hp.
    change (map strip [] ++ last_arg key) with (last_arg key).
    rewrite last_arg_nonempty by done.
    destruct (invoke d cls (strip name) context [strip key]); simpl;
      [by rewrite app_nil_r | done].
  - rewrite count_app, Hsname. cbn [count].
    change (LPAREN =? SEC)%N with false. cbn iota.
    rewrite count_app, Hskey. reflexivity.
Qed.

(** C5: with the key bound nowhere in the parent chain of the context,
    "§include(key)§" fails with KeyError and "§include_conditional(key)§"
    evaluates to the empty string.  (The key that the operation receives is
    the argument stripped of surrounding whitespace.) *)
Theorem C5_include_fails_include_conditional_recovers (d : nat)
    (context : Context) (key : text) :
  key <> [] -> is_atomic key = true -> count SEC key = 0 ->
  (forall c', c' ∈ chain context -> fragments c' !! strip key = None) ->
  interpret (S d) Interpreter context
    (SEC :: (u "include" ++ LPAREN :: key ++ [RPAREN]) ++ [SEC])
  = Err KeyError /\
  interpret (S (S d)) Interpreter context
    (SEC :: (u "include_conditional" ++ LPAREN :: key ++ [RPAREN]) ++ [SEC])
  = Ok [].
Proof.
  intros Hne Hkey Hsec Hunbound.
  assert (get context (strip key) = Err KeyError) as Hget
    by (by apply get_KeyError_iff).
  split.
  - rewrite interpret_call by done.
    change (strip (u "include")) with (u "include").
    by rewrite invoke_include, Hget.
  - rewrite interpret_call by done.
    change (strip (u "include_conditional")) with (u "include_conditional").
    by rewrite invoke_include_conditional, invoke_include, Hget.
Qed.

Lemma C5_include_fails_include_conditional_recovers_witness :
  interpret 1 Interpreter example_child
    (SEC :: u "include(main)" ++ [SEC]) = Err KeyError /\
  interpret 2 Interpreter example_child
    (SEC :: u "include_conditional(main)" ++ [SEC]) = Ok [].
Proof.
  apply (C5_include_fails_include_conditional_recovers 0 example_child
           (u "main")).
  - discriminate.
  - reflexivity.
  - reflexivity.
  - intros c' Hin.
    change (chain example_child) with [example_child; example_parent] in Hin.
    apply elem_of_cons in Hin as [-> | ->%list_elem_of_singleton];
      reflexivity.
Defined.

(** C9: [include_conditional] returns the empty string for every KeyError
    that the inclusion raises: when the key itself is unbound, and also when
    the key is bound and the evaluation of its fragment fails with KeyError
    (a nested include of an unbound key, say); what the inclusion had
    produced until then is dropped. *)
Theorem C9_include_conditional_recovers_nested_KeyError (d : nat)
    (context : Context) (key : text) :
  (get context key = Err KeyError \/
   exists frag, get context key = Ok frag /\
                interpret d Interpreter context frag = Err KeyError) ->
  invoke (S (S d)) Interpreter (u "include_conditional") context [key]
  = Ok [].
Proof.
  intros H. rewrite invoke_include_conditional, invoke_include.
  destruct H as [-> | (frag & -> & Hfrag)]; [done |].
  simpl. by rewrite Hfrag.
Qed.

Lemma C9_include_conditional_recovers_nested_KeyError_witness :
  get example_page (u "page")
  = Ok (u "abc" ++ SEC :: u "include(missing)" ++ [SEC]) /\
  invoke 3 Interpreter (u "include_conditional") example_page [u "page"]
  = Ok [].
Proof.
  split; [reflexivity |].
  apply (C9_include_conditional_recovers_nested_KeyError 1 example_page
           (u "page")).
  right. exists (u "abc" ++ SEC :: u "include(missing)" ++ [SEC]).
  split; reflexivity.
Defined.




(** C1: the example of the specification evaluates to "blubb-bar!".  With the
    composite argument first, "bla(foo(bar), blubb)", the argument list of
    [bla] ends at the ")" that closes [foo(bar)]: [bla] is called with the
    single argument "bar!" (a TypeError for the two-argument operation) and
    "blubb" is never evaluated. *)
Theorem C1_composite_argument_ends_argument_list :
  (forall d context,
      interpret (S d) TestInterpreter context
        (SEC :: u "bla(blubb, foo(bar))" ++ [SEC])
      = Ok (u "blubb-bar!")) /\
  (forall d context,
      interpret (S d) TestInterpreter context
        (SEC :: u "bla(foo(bar), blubb)" ++ [SEC])
      = Err TypeError) /\
  parse record (u "bla(blubb, foo(bar))") = Ok (u "bla[blubb;foo[bar;];]") /\
  parse record (u "bla(foo(bar), blubb)") = Ok (u "bla[foo[bar;];]").
Proof.
  split; [| split; [| split]]; intros; reflexivity.
Qed.

(** ** The budget of the parser is never used up *)

Section ParserBudget.

Variable dispatch : text -> list text -> result text.
Variable e : text.

Lemma scan_ge (idx : nat) : idx <= scan e idx.
Proof. unfold scan. lia. Qed.

(** The cursor never moves back, and an argument that does not start at ")"
    moves it forward. *)
Lemma parse_collect_progress (k : nat) :
  (forall idx v idx',
      parse_at dispatch e k idx = Ok (v, idx') ->
      idx <= idx' /\
      (forall ch, e !! idx = Some ch -> ch <> RPAREN -> idx < idx')) /\
  (forall idx args a idx',
      collect dispatch e k idx args = Ok (a, idx') -> idx <= idx').
Proof.
  induction k as [| k [IHp IHc]]; [by split |].
  split.
  - intros idx v idx' H. rewrite parse_at_S in H.
    pose proof (scan_ge idx) as Hge.
    destruct (e !! scan e idx) as [ch |] eqn:Hi.
    + destruct (ch =? COMMA)%N; [simplify_eq; split; intros; lia |].
      destruct (N.eqb_spec ch RPAREN) as [-> | Hne].
      * simplify_eq. split; [done |]. intros ch Hch Hne.
        destruct (decide (scan e idx = idx)) as [Heq | ?]; [| lia].
        rewrite Heq in Hi. congruence.
      * destruct (collect dispatch e k (S (scan e idx)) [])
          as [[args idx1] |] eqn:Hc; simpl in H; [| done].
        apply IHc in Hc.
        destruct (dispatch _ args); simpl in H; simplify_eq.
        split; intros; lia.
    + simplify_eq. split; [done |]. intros ch Hch Hne.
      destruct (decide (scan e idx = idx)) as [Heq | ?]; [| lia].
      rewrite Heq in Hi. congruence.
  - intros idx args a idx' H. rewrite collect_S in H.
    destruct (e !! idx) as [ch |]; [| by simplify_eq].
    destruct (ch =? RPAREN)%N; [by simplify_eq |].
    destruct (parse_at dispatch e k idx) as [[v idx1] |] eqn:Hp;
      simpl in H; [| done].
    apply IHp in Hp as [Hp _]. apply IHc in H. lia.
Qed.

Lemma parse_collect_budget (n : nat) :
  forall idx, length e - idx <= n ->
    (forall k k', 2 * n + 1 <= k -> 2 * n + 1 <= k' ->
       parse_at dispatch e k idx = parse_at dispatch e k' idx) /\
    (forall k k' args, 2 * n + 2 <= k -> 2 * n + 2 <= k' ->
       collect dispatch e k idx args = collect dispatch e k' idx args).
Proof.
  induction n as [| n IH]; intros idx Hidx.
  - split.
    + intros [| k] [| k'] Hk Hk'; [lia.. |]. rewrite !parse_at_S.
      pose proof (scan_ge idx).
      by rewrite (proj2 (lookup_ge_None e (scan e idx))) by lia.
    + intros [| k] [| k'] args Hk Hk'; [lia.. |]. rewrite !collect_S.
      by rewrite (proj2 (lookup_ge_None e idx)) by lia.
  - assert (forall k k', 2 * S n + 1 <= k -> 2 * S n + 1 <= k' ->
              parse_at dispatch e k idx = parse_at dispatch e k' idx)
      as Hparse.
    { intros [| k] [| k'] Hk Hk'; [lia.. |]. rewrite !parse_at_S.
      pose proof (scan_ge idx).
      destruct (e !! scan e idx) as [ch |] eqn:Hi; [| done].
      apply lookup_lt_Some in Hi.
      destruct (ch =? COMMA)%N; [done |].
      destruct (ch =? RPAREN)%N; [done |].
      destruct (IH (S (scan e idx))) as [_ Hc]; [lia |].
      by rewrite (Hc k k') by lia. }
    split; [done |].
    intros [| k] [| k'] args Hk Hk'; [lia.. |]. rewrite !collect_S.
    destruct (e !! idx) as [ch |] eqn:Hi; [| done].
    destruct (N.eqb_spec ch RPAREN) as [| Hne]; [done |].
    rewrite (Hparse k k') by lia.
    destruct (parse_at dispatch e k' idx) as [[a idx1] |] eqn:Hp; [| done].
    cbn [mbind result_bind].
    destruct (parse_collect_progress k') as [Hprog _].
    apply Hprog in Hp as [_ Hlt]. specialize (Hlt ch Hi Hne).
    apply lookup_lt_Some in Hi.
    destruct (IH idx1) as [_ Hc]; [lia |].
    apply Hc; lia.
Qed.

(** Every budget of at least 2 * len(e) + 1 gives the same result. *)
Lemma parse_at_budget (k : nat) :
  2 * length e + 1 <= k ->
  parse_at dispatch e k 0 = parse_at dispatch e (2 * length e + 1) 0.
Proof.
  intros Hk. destruct (parse_collect_budget (length e) 0) as [Hp _]; [lia |].
  apply Hp; lia.
Qed.

End ParserBudget.

(** * Further properties *)

(** ** Context *)

(** X1: a binding made by [put] is what [get] returns for that key; the
    lookup of every other key is unchanged, the parent is unchanged, and a
    second [put] for the key replaces the first. *)
Theorem put_get_round_trip (c : Context) (key frag : text) :
  get (put c key frag) key = Ok frag /\
  (forall key', key' <> key -> get (put c key frag) key' = get c key') /\
  parent (put c key frag) = parent c /\
  (forall frag', put (put c key frag') key frag = put c key frag).
Proof.
  destruct c as [p f]. unfold put. simpl. split; [| split; [| split]].
  - by rewrite lookup_insert_eq.
  - intros key' Hne. by rewrite lookup_insert_ne.
  - done.
  - intros frag'. by rewrite insert_insert_eq.
Qed.

Lemma visible_lookup (c : Context) (key : text) :
  visible c !! key
  = match fragments c !! key with
    | Some frag => Some frag
    | None => match parent c with
              | Some p => visible p !! key
              | None => None
              end
    end.
Proof.
  destruct c as [[p |] f]; simpl; rewrite lookup_union;
    destruct (f !! key) as [frag |]; simpl; rewrite ?lookup_empty;
    first [done | by destruct (visible p !! key)].
Qed.

Lemma get_visible (c : Context) (key : text) :
  get c key = match visible c !! key with
              | Some frag => Ok frag
              | None => Err KeyError
              end.
Proof.
  induction c as [f | p f IH] using Context_chain_ind;
    rewrite visible_lookup; simpl; destruct (f !! key); done.
Qed.

(** X2: a lookup through the parent chain is a lookup in the bindings of the
    chain merged with the nearer context taking precedence: [get] returns
    the merged binding, and raises KeyError exactly when there is none. *)
Theorem get_is_lookup_in_merged_chain (c : Context) (key : text) :
  (forall frag, get c key = Ok frag <-> visible c !! key = Some frag) /\
  (get c key = Err KeyError <-> visible c !! key = None).
Proof.
  rewrite get_visible.
  destruct (visible c !! key); split; intros; split; congruence.
Qed.

(** ** Interpreter *)

Lemma Interpreter_var : Interpreter (u "var") = Some Interpreter.var.
Proof. reflexivity. Qed.

Lemma Interpreter_sec : Interpreter (u "sec") = Some Interpreter.sec.
Proof. reflexivity. Qed.

Lemma bind_Ok_id {A : Type} (r : result A) : (a ← r; Ok a) = r.
Proof. by destruct r. Qed.

(** X3: "§var(key)§" evaluates to the fragment bound to the key, copied as
    it is (expressions in it are not evaluated), and to the empty string
    when the key is bound nowhere in the chain; it never fails. *)
Theorem var_yields_binding_verbatim (d : nat) (context : Context)
    (key : text) :
  key <> [] -> is_atomic key = true -> count SEC key = 0 ->
  interpret (S d) Interpreter context (call_text (u "var") key)
  = Ok (default [] (visible context !! strip key)).
Proof.
  intros Hne Hkey Hsec. unfold call_text.
  rewrite interpret_call by done.
  change (strip (u "var")) with (u "var").
  rewrite invoke_S, Interpreter_var. unfold Interpreter.var.
  rewrite get_visible.
  by destruct (visible context !! strip key).
Qed.

Lemma var_yields_binding_verbatim_witness :
  interpret 1 Interpreter example_cycle (call_text (u "var") (u " loop "))
  = Ok (call_text (u "include") (u "loop")) /\
  interpret 1 Interpreter example_cycle (call_text (u "var") (u "other"))
  = Ok [].
Proof.
  split.
  - apply (var_yields_binding_verbatim 0 example_cycle (u " loop "));
      [discriminate | reflexivity | reflexivity].
  - apply (var_yields_binding_verbatim 0 example_cycle (u "other"));
      [discriminate | reflexivity | reflexivity].
Defined.

Lemma interpret_include (d : nat) (context : Context) (key frag : text) :
  key <> [] -> is_atomic key = true -> count SEC key = 0 ->
  get context (strip key) = Ok frag ->
  interpret (S d) Interpreter context (call_text (u "include") key)
  = interpret d Interpreter context frag.
Proof.
  intros Hne Hkey Hsec Hget. unfold call_text.
  rewrite interpret_call by done.
  change (strip (u "include")) with (u "include").
  rewrite invoke_include, Hget. simpl. apply bind_Ok_id.
Qed.

(** X4: "§include(key)§" evaluates to what [interpret] gives for the
    fragment bound to the key, in the same context (so the fragment sees the
    bindings of the including context), with one stack frame less. *)
Theorem include_interprets_fragment (d : nat) (context : Context)
    (key frag : text) :
  key <> [] -> is_atomic key = true -> count SEC key = 0 ->
  get context (strip key) = Ok frag ->
  interpret (S d) Interpreter context (call_text (u "include") key)
  = interpret d Interpreter context frag.
Proof. apply interpret_include. Qed.

Lemma include_interprets_fragment_witness :
  interpret 2 Interpreter
    (mkContext (Some example_parent)
       {[ u "head" := u "<h1>" ++ call_text (u "var") (u "title") ]})
    (call_text (u "include") (u "head"))
  = Ok (u "<h1>Home").
Proof.
  rewrite (include_interprets_fragment 1 _ (u "head")
             (u "<h1>" ++ call_text (u "var") (u "title")));
    [reflexivity | discriminate | reflexivity | reflexivity | reflexivity].
Defined.

(** X5: a fragment that includes itself is not detected: "§include(key)§"
    then fails with RecursionError whatever the depth budget, and returns no
    value. *)
Theorem self_include_exhausts_every_budget (d : nat) (context : Context)
    (key : text) :
  key <> [] -> is_atomic key = true -> count SEC key = 0 ->
  get context (strip key) = Ok (call_text (u "include") key) ->
  interpret d Interpreter context (call_text (u "include") key)
  = Err RecursionError.
Proof.
  intros Hne Hkey Hsec Hget. induction d as [| d IH].
  - unfold call_text. rewrite interpret_call by done.
    change (strip (u "include")) with (u "include"). reflexivity.
  - by rewrite (interpret_include d context key _ Hne Hkey Hsec Hget).
Qed.

Lemma self_include_exhausts_every_budget_witness :
  interpret 1000 Interpreter example_cycle (call_text (u "include") (u "loop"))
  = Err RecursionError.
Proof.
  apply (self_include_exhausts_every_budget 1000 example_cycle (u "loop"));
    [discriminate | reflexivity | reflexivity | reflexivity].
Defined.

(** X6: where "§include(key)§" returns a value or fails with anything but
    KeyError, "§include_conditional(key)§" does the same (with one stack
    frame more). *)
Theorem include_conditional_agrees_with_include (d : nat)
    (context : Context) (key : text) :
  key <> [] -> is_atomic key = true -> count SEC key = 0 ->
  interpret d Interpreter context (call_text (u "include") key)
  <> Err KeyError ->
  interpret (S d) Interpreter context
    (call_text (u "include_conditional") key)
  = interpret d Interpreter context (call_text (u "include") key).
Proof.
  intros Hne Hkey Hsec. unfold call_text.
  rewrite !interpret_call by done.
  change (strip (u "include")) with (u "include").
  change (strip (u "include_conditional")) with (u "include_conditional").
  rewrite invoke_include_conditional, !bind_Ok_id.
  by destruct (invoke d Interpreter (u "include") context [strip key])
    as [r | []].
Qed.

Lemma include_conditional_agrees_with_include_witness :
  interpret 3 Interpreter example_cycle
    (call_text (u "include_conditional") (u "loop"))
  = Err RecursionError.
Proof.
  rewrite (include_conditional_agrees_with_include 2 example_cycle
             (u "loop"));
    [reflexivity | discriminate | reflexivity | reflexivity | discriminate].
Defined.

Lemma put_get_round_trip_witness :
  get (put example_child (u "lang") (u "fr")) (u "lang") = Ok (u "fr") /\
  get (put example_child (u "lang") (u "fr")) (u "title") = Ok (u "Home").
Proof.
  destruct (put_get_round_trip example_child (u "lang") (u "fr"))
    as (Hsame & Hother & _).
  split; [exact Hsame |].
  rewrite Hother; [reflexivity | discriminate].
Defined.

Lemma get_is_lookup_in_merged_chain_witness :
  visible example_child !! u "lang" = Some (u "en") /\
  visible example_child !! u "title" = Some (u "Home") /\
  visible example_child !! u "main" = None.
Proof.
  split; [| split].
  - apply (get_is_lookup_in_merged_chain example_child (u "lang")).
    reflexivity.
  - apply (get_is_lookup_in_merged_chain example_child (u "title")).
    reflexivity.
  - apply (get_is_lookup_in_merged_chain example_child (u "main")).
    reflexivity.
Defined.

(** ** strip *)

Lemma isspace_not_structural (ch : char) :
  isspace ch = true -> structural ch = false.
Proof.
  intros H. unfold structural.
  destruct (N.eqb_spec ch LPAREN) as [-> | _]; [discriminate H |].
  destruct (N.eqb_spec ch COMMA) as [-> | _]; [discriminate H |].
  destruct (N.eqb_spec ch RPAREN) as [-> | _]; [discriminate H | done].
Qed.

Lemma all_space_atomic (ws : text) : all_space ws = true -> is_atomic ws = true.
Proof.
  unfold all_space, is_atomic. induction ws as [| ch ws IH]; simpl; [done |].
  intros [Hch Hws]%andb_true_iff.
  by rewrite (isspace_not_structural ch Hch), IH.
Qed.

Lemma all_space_app (s t : text) :
  all_space (s ++ t) = all_space s && all_space t.
Proof. unfold all_space. apply forallb_app. Qed.

Lemma all_space_rev (s : text) : all_space (rev s) = all_space s.
Proof.
  induction s as [| ch s IH]; simpl; [done |].
  rewrite all_space_app, IH. unfold all_space. simpl.
  rewrite andb_true_r. apply andb_comm.
Qed.

Lemma lstrip_space_app (ws s : text) :
  all_space ws = true -> lstrip (ws ++ s) = lstrip s.
Proof.
  unfold all_space. induction ws as [| ch ws IH]; simpl; [done |].
  intros [-> Hws]%andb_true_iff. by apply IH.
Qed.

Lemma rstrip_app_space (s ws : text) :
  all_space ws = true -> rstrip (s ++ ws) = rstrip s.
Proof.
  intros Hws. unfold rstrip. rewrite rev_app_distr.
  by rewrite lstrip_space_app by (by rewrite all_space_rev).
Qed.

Lemma strip_space (ws : text) : all_space ws = true -> strip ws = [].
Proof.
  intros Hws. unfold strip.
  pose proof (lstrip_space_app ws [] Hws) as H.
  rewrite app_nil_r in H. by rewrite H.
Qed.

Lemma strip_pad (w1 a w2 : text) :
  all_space w1 = true -> all_space w2 = true ->
  strip (w1 ++ a ++ w2) = strip a.
Proof.
  intros Hw1 Hw2. unfold strip. rewrite lstrip_space_app by done.
  induction a as [| ch a IH]; simpl.
  - pose proof (lstrip_space_app w2 [] Hw2) as H.
    rewrite app_nil_r in H. by rewrite H.
  - destruct (isspace ch); [done |].
    apply (rstrip_app_space (ch :: a) w2 Hw2).
Qed.

(** ** ExpressionParser, further *)

(** X7: an expression without parentheses is not looked up anywhere: it
    evaluates to its text up to the first "," or ")" (or the end), stripped
    of surrounding white space; what follows is not read, no operation is
    called and the evaluation cannot fail. *)
Theorem atomic_expression_is_its_text
    (dispatch : text -> list text -> result text) (a tail : text) :
  is_atomic a = true -> ends_atom tail ->
  parse dispatch (a ++ tail) = Ok (strip a).
Proof.
  intros Ha Htail. unfold parse.
  replace (2 * length (a ++ tail) + 1) with (S (2 * length (a ++ tail)))
    by lia.
  rewrite (parse_at_token dispatch (a ++ tail) _ [] a tail eq_refl Ha).
  - destruct tail as [| ch tail]; [done |].
    destruct Htail as [-> | ->]; reflexivity.
  - destruct tail as [| ch tail]; [done |].
    by destruct Htail as [-> | ->].
Qed.

Lemma atomic_expression_is_its_text_witness :
  parse (fun v args => invoke 1 Interpreter v root args) (u " sec , x")
  = Ok (u "sec").
Proof.
  apply (atomic_expression_is_its_text _ (u " sec ") (u ", x"));
    [reflexivity | by left].
Defined.

(** X8: a composite expression with atomic arguments calls the operation
    named by the stripped head token with the stripped arguments, in order;
    the text after the closing ")" is not read, and a comma directly before
    the ")" adds no argument. *)
Theorem flat_composite_is_one_call
    (dispatch : text -> list text -> result text)
    (h last rest : text) (atoms : list text) :
  is_atomic h = true ->
  Forall (fun a => is_atomic a = true) atoms ->
  is_atomic last = true ->
  parse dispatch (h ++ LPAREN :: flat atoms ++ last ++ RPAREN :: rest)
  = dispatch (strip h) (map strip atoms ++ last_arg last) /\
  (last <> [] ->
   parse dispatch (h ++ LPAREN :: flat (atoms ++ [last]) ++ RPAREN :: rest)
   = parse dispatch (h ++ LPAREN :: flat atoms ++ last ++ RPAREN :: rest)).
Proof.
  intros Hh Hatoms Hlast.
  pose proof (parse_flat dispatch h last (RPAREN :: rest) atoms
                Hh Hatoms Hlast eq_refl) as Hp.
  split; [done |]. intros Hne. rewrite Hp.
  assert (Forall (fun a => is_atomic a = true) (atoms ++ [last])) as Hall
    by (apply Forall_app; split; [done | by constructor]).
  pose proof (parse_flat dispatch h [] (RPAREN :: rest) (atoms ++ [last])
                Hh Hall eq_refl eq_refl) as Hq.
  simpl in Hq. rewrite Hq.
  by rewrite map_app, app_nil_r, last_arg_nonempty.
Qed.

Lemma flat_composite_is_one_call_witness :
  parse record (u "f( a ,b ) trailing") = Ok (u "f[a;b;]") /\
  parse record (u "f(a,b,)") = Ok (u "f[a;b;]").
Proof.
  destruct (flat_composite_is_one_call record (u "f") (u "b ")
              (u " trailing") [u " a "])
    as [H1 _]; [reflexivity | by repeat constructor | reflexivity |].
  destruct (flat_composite_is_one_call record (u "f") (u "b") [] [u "a"])
    as [H2 H3]; [reflexivity | by repeat constructor | reflexivity |].
  split; [exact H1 |].
  etransitivity; [apply H3; discriminate | reflexivity].
Defined.

(** X9: white space between the parentheses is an argument: "h( )" calls
    the operation with the one argument "" (the empty string), whereas "h()"
    calls it with no argument. *)
Theorem blank_argument_list_is_one_empty_argument
    (dispatch : text -> list text -> result text) (h ws rest : text) :
  is_atomic h = true -> all_space ws = true -> ws <> [] ->
  parse dispatch (h ++ LPAREN :: ws ++ RPAREN :: rest)
  = dispatch (strip h) [[]] /\
  parse dispatch (h ++ LPAREN :: RPAREN :: rest) = dispatch (strip h) [].
Proof.
  intros Hh Hws Hne. split.
  - pose proof (parse_flat dispatch h ws (RPAREN :: rest) [] Hh
                  (Forall_nil_2 _) (all_space_atomic ws Hws) eq_refl) as Hp.
    simpl in Hp. rewrite Hp.
    rewrite last_arg_nonempty by done. by rewrite (strip_space ws).
  - apply (parse_flat dispatch h [] (RPAREN :: rest) [] Hh
             (Forall_nil_2 _) eq_refl eq_refl).
Qed.

Lemma blank_argument_list_is_one_empty_argument_witness :
  interpret 1 Interpreter root (SEC :: u "sec( )" ++ [SEC]) = Err TypeError /\
  interpret 1 Interpreter root (SEC :: u "sec()" ++ [SEC]) = Ok [SEC].
Proof.
  destruct (blank_argument_list_is_one_empty_argument
              (fun v args => invoke 1 Interpreter v root args)
              (u "sec") (u " ") []) as [H1 H2];
    [reflexivity | reflexivity | discriminate |].
  unfold interpret.
  rewrite (interpret_with_one_span _ _ [] (u "sec( )") []) by reflexivity.
  rewrite (interpret_with_one_span _ _ [] (u "sec()") []) by reflexivity.
  change (u "sec( )") with (u "sec" ++ LPAREN :: u " " ++ RPAREN :: []).
  change (u "sec()") with (u "sec" ++ LPAREN :: RPAREN :: []).
  rewrite H1, H2. split; reflexivity.
Defined.

Lemma is_atomic_app (s t : text) :
  is_atomic (s ++ t) = is_atomic s && is_atomic t.
Proof. unfold is_atomic. apply forallb_app. Qed.

Lemma pad_atomic (t : text * text * text) :
  well_padded t -> is_atomic (pad t) = true.
Proof.
  intros (Hw1 & Ha & Hw2). unfold pad.
  by rewrite !is_atomic_app, Ha, !all_space_atomic.
Qed.

Lemma strip_pad_core (t : text * text * text) :
  well_padded t -> strip (pad t) = strip (core t).
Proof. intros (Hw1 & Ha & Hw2). by apply strip_pad. Qed.

Lemma core_atomic (t : text * text * text) :
  well_padded t -> is_atomic (core t) = true.
Proof. by intros (_ & Ha & _). Qed.

(** X10: white space around the operation name and around the arguments
    makes no difference to the call (the last argument being non-empty: see
    [blank_argument_list_is_one_empty_argument] for the empty one). *)
Theorem white_space_around_tokens_is_ignored
    (dispatch : text -> list text -> result text)
    (h last : text * text * text) (toks : list (text * text * text))
    (tail : text) :
  well_padded h -> well_padded last -> Forall well_padded toks ->
  core last <> [] -> closes tail ->
  parse dispatch (pad h ++ LPAREN :: flat (map pad toks) ++ pad last ++ tail)
  = parse dispatch
      (core h ++ LPAREN :: flat (map core toks) ++ core last ++ tail).
Proof.
  intros Hh Hlast Htoks Hne Htail.
  rewrite !parse_flat; try done.
  - rewrite (strip_pad_core h Hh).
    rewrite !last_arg_nonempty, (strip_pad_core last Hlast); [| done |].
    + f_equal. f_equal. rewrite !map_map.
      apply map_ext_Forall. eapply Forall_impl; [exact Htoks |].
      intros t Ht. by apply strip_pad_core.
    + unfold pad. destruct last as [[w1 a] w2]; simpl in *.
      by destruct w1, a.
  - by apply core_atomic.
  - apply Forall_map. eapply Forall_impl; [exact Htoks |].
    intros t Ht. by apply core_atomic.
  - by apply core_atomic.
  - by apply pad_atomic.
  - apply Forall_map. eapply Forall_impl; [exact Htoks |].
    intros t Ht. by apply pad_atomic.
  - by apply pad_atomic.
Qed.

Lemma white_space_around_tokens_is_ignored_witness :
  parse record (u " f ( a ,  b )") = parse record (u "f(a,b)").
Proof.
  apply (white_space_around_tokens_is_ignored record
           (u " ", u "f", u " ") (u "  ", u "b", u " ")
           [(u " ", u "a", u " ")] (u ")")).
  - by repeat split.
  - by repeat split.
  - by repeat constructor.
  - discriminate.
  - reflexivity.
Defined.

(** The argument loop over atomic arguments that are each closed by a
    comma, whatever follows them. *)
Lemma collect_atoms (dispatch : text -> list text -> result text)
    (atoms : list text) :
  forall (e : text) (k : nat) (pre rest : text) (args : list text),
    e = pre ++ flat atoms ++ rest ->
    Forall (fun a => is_atomic a = true) atoms ->
    collect dispatch e (length atoms + S k) (length pre) args
    = collect dispatch e (S k) (length pre + length (flat atoms))
        (args ++ map strip atoms).
Proof.
  induction atoms as [| a atoms IH]; intros e k pre rest args He Hatoms.
  - simpl. by rewrite Nat.add_0_r, app_nil_r.
  - apply Forall_cons in Hatoms as [Ha Hatoms].
    assert (e = pre ++ a ++ COMMA :: (flat atoms ++ rest)) as He1.
    { rewrite He. unfold flat. simpl. by rewrite <- !app_assoc. }
    assert (e = (pre ++ a ++ [COMMA]) ++ flat atoms ++ rest) as He2.
    { rewrite He1. by rewrite <- !app_assoc. }
    change (length (a :: atoms) + S k) with (S (length atoms + S k)).
    rewrite collect_S.
    replace (e !! length pre) with (Some (default COMMA (head a)))
      by (rewrite He1, lookup_app_length; by destruct a).
    assert ((default COMMA (head a) =? RPAREN)%N = false) as ->.
    { destruct a as [| ch a]; [done |]. simpl.
      apply is_atomic_cons in Ha as [Hch _]. by apply not_rparen. }
    rewrite Nat.add_succ_r.
    rewrite (parse_at_token dispatch e _ pre a _ He1) by done.
    change (COMMA =? COMMA)%N with true. cbn [mbind result_bind].
    rewrite <- Nat.add_succ_r.
    replace (S (length pre + length a)) with (length (pre ++ a ++ [COMMA]))
      by (rewrite !length_app; simpl; lia).
    rewrite (IH e k _ rest _ He2 Hatoms).
    f_equal.
    + unfold flat. simpl. rewrite !length_app. simpl. lia.
    + simpl. by rewrite <- app_assoc.
Qed.

(** X11: a composite expression whose last argument is itself a composite
    (with atomic arguments): the inner operation is called first, then the
    outer one with the atomic arguments and the inner value, in order.  The
    outer argument list ends at the ")" of the inner one: whatever follows
    that ")" is not read. *)
Theorem composite_last_argument
    (dispatch : text -> list text -> result text)
    (h g last2 rest : text) (atoms atoms2 : list text) :
  is_atomic h = true -> is_atomic g = true ->
  Forall (fun a => is_atomic a = true) atoms ->
  Forall (fun a => is_atomic a = true) atoms2 ->
  is_atomic last2 = true ->
  parse dispatch
    (h ++ LPAREN :: flat atoms
       ++ g ++ LPAREN :: flat atoms2 ++ last2 ++ RPAREN :: rest)
  = (r ← dispatch (strip g) (map strip atoms2 ++ last_arg last2);
     dispatch (strip h) (map strip atoms ++ [r])).
Proof.
  intros Hh Hg Hatoms Hatoms2 Hlast2.
  set (inner := g ++ LPAREN :: flat atoms2 ++ last2 ++ RPAREN :: rest).
  rewrite (parse_composite dispatch h (flat atoms ++ inner) Hh).
  remember (h ++ LPAREN :: flat atoms ++ inner) as e eqn:He.
  assert (e = (h ++ [LPAREN]) ++ flat atoms ++ inner) as He1
    by (rewrite He; by rewrite <- app_assoc).
  set (pre := (h ++ [LPAREN]) ++ flat atoms).
  assert (e = pre ++ g ++ LPAREN :: flat atoms2 ++ last2 ++ RPAREN :: rest)
    as He2 by (rewrite He1; unfold pre, inner; by rewrite <- !app_assoc).
  assert (e = (pre ++ g ++ [LPAREN]) ++ flat atoms2 ++ last2 ++ RPAREN :: rest)
    as He3 by (rewrite He2; by rewrite <- !app_assoc).
  assert (length atoms + length atoms2 + 3 <= length e) as Hlen.
  { rewrite He3. unfold pre. rewrite !length_app. simpl.
    pose proof (length_flat atoms). pose proof (length_flat atoms2). lia. }
  replace (S (length h)) with (length (h ++ [LPAREN]))
    by (rewrite length_app; simpl; lia).
  replace (2 * length e)
    with (length atoms + S (S (2 * length e - length atoms - 2))) by lia.
  rewrite (collect_atoms dispatch atoms e _ (h ++ [LPAREN]) inner [] He1)
    by done.
  rewrite <- length_app. fold pre.
  rewrite collect_S.
  replace (e !! length pre) with (Some (default LPAREN (head g)))
    by (rewrite He2, lookup_app_length; by destruct g).
  assert ((default LPAREN (head g) =? RPAREN)%N = false) as ->.
  { destruct g as [| ch g]; [done |]. simpl.
    apply is_atomic_cons in Hg as [Hch _]. by apply not_rparen. }
  rewrite (parse_at_token dispatch e _ pre g _ He2) by done.
  change (LPAREN =? COMMA)%N with false.
  change (LPAREN =? RPAREN)%N with false. cbn iota.
  replace (S (length pre + length g)) with (length (pre ++ g ++ [LPAREN]))
    by (rewrite !length_app; simpl; lia).
  rewrite (collect_flat dispatch atoms2 e _ _ last2 (RPAREN :: rest) [] He3)
    by (done || lia).
  cbn [mbind result_bind app].
  destruct (dispatch (strip g) (map strip atoms2 ++ last_arg last2))
    as [r | x]; cbn [mbind result_bind]; [| done].
  rewrite collect_S.
  replace (e !! (length (pre ++ g ++ [LPAREN]) + length (flat atoms2)
                 + length last2)) with (Some RPAREN).
  - change (RPAREN =? RPAREN)%N with true. by cbn iota.
  - symmetry. set (A := pre ++ g ++ [LPAREN]).
    replace e with ((A ++ flat atoms2 ++ last2) ++ RPAREN :: rest)
      by (rewrite He3; fold A; by rewrite <- !app_assoc).
    apply list_lookup_middle. rewrite !length_app. lia.
Qed.

Lemma composite_last_argument_witness :
  parse (fun v args => invoke 1 TestInterpreter v root args)
    (u "bla(blubb, foo(bar)) and more, ignored")
  = Ok (u "blubb-bar!").
Proof.
  rewrite (composite_last_argument _ (u "bla") (u " foo") (u "bar")
             (u ") and more, ignored") [u "blubb"] []);
    [reflexivity | reflexivity | reflexivity | by repeat constructor
     | constructor | reflexivity].
Defined.

Lemma atomic_prefix_le (s : text) : atomic_prefix s <= length s.
Proof.
  induction s as [| ch s IH]; simpl; [done |].
  destruct (structural ch); lia.
Qed.

Lemma scan_le (e : text) (idx : nat) :
  idx <= length e -> scan e idx <= length e.
Proof.
  intros H. unfold scan.
  pose proof (atomic_prefix_le (drop idx e)) as Hle.
  rewrite length_drop in Hle. lia.
Qed.

(** X12: the cursor of the parser stays inside the expression and never
    moves back; the argument loop only adds arguments to the list it was
    given, and it leaves the cursor at the end of the input or at a ")". *)
Theorem parser_cursor_stays_in_bounds
    (dispatch : text -> list text -> result text) (e : text) (k : nat) :
  (forall idx v idx',
      idx <= length e ->
      parse_at dispatch e k idx = Ok (v, idx') ->
      idx <= idx' <= length e) /\
  (forall idx args a idx',
      idx <= length e ->
      collect dispatch e k idx args = Ok (a, idx') ->
      idx <= idx' <= length e /\
      (e !! idx' = None \/ e !! idx' = Some RPAREN) /\
      exists new, a = args ++ new).
Proof.
  induction k as [| k [IHp IHc]]; [by split |].
  split.
  - intros idx v idx' Hidx H.
    destruct (parse_collect_progress dispatch e (S k)) as [Hprog _].
    split; [by apply (Hprog idx v idx') |].
    rewrite parse_at_S in H. pose proof (scan_le e idx Hidx) as Hle.
    destruct (e !! scan e idx) as [ch |] eqn:Hi; [| by simplify_eq].
    apply lookup_lt_Some in Hi.
    destruct (ch =? COMMA)%N; [simplify_eq; lia |].
    destruct (ch =? RPAREN)%N; [by simplify_eq |].
    destruct (collect dispatch e k (S (scan e idx)) [])
      as [[args idx1] |] eqn:Hc; simpl in H; [| done].
    apply IHc in Hc as [Hc _]; [| lia].
    destruct (dispatch _ args); simpl in H; simplify_eq. lia.
  - intros idx args a idx' Hidx H. rewrite collect_S in H.
    destruct (e !! idx) as [ch |] eqn:Hi.
    + destruct (N.eqb_spec ch RPAREN) as [-> | Hne].
      * simplify_eq. split; [lia |]. split; [by right |].
        exists []. by rewrite app_nil_r.
      * destruct (parse_at dispatch e k idx) as [[v idx1] |] eqn:Hp;
          simpl in H; [| done].
        apply IHp in Hp; [| done].
        apply IHc in H as (Hb & Hend & new & ->); [| lia].
        split; [lia |]. split; [done |].
        exists (v :: new). by rewrite <- app_assoc.
    + simplify_eq. split; [lia |]. split; [by left |].
      exists []. by rewrite app_nil_r.
Qed.

Lemma parser_cursor_stays_in_bounds_witness :
  parse_at record (u "f(a,b) rest") 5 0 = Ok (u "f[a;b;]", 5) /\
  0 <= 5 <= length (u "f(a,b) rest").
Proof.
  split; [reflexivity |].
  apply (proj1 (parser_cursor_stays_in_bounds record (u "f(a,b) rest") 5)
           0 (u "f[a;b;]") 5).
  - simpl. lia.
  - reflexivity.
Defined.

(** ** interpret, further *)

Lemma interpret_loop_first_error (f : text -> result text)
    (val : text -> text) (x : exn) (e l : text)
    (els1 els2 : list (text * text)) :
  Forall (fun el => f el.1 = Ok (val el.1)) els1 ->
  f e = Err x ->
  forall (l0 : text) (output : list text),
    interpret_loop f
      (l0 :: concat (map (fun el => [el.1; el.2]) (els1 ++ (e, l) :: els2)))
      output
    = Err x.
Proof.
  intros Hels He.
  induction Hels as [| [e1 l1] els1 He1 _ IH]; intros l0 output; simpl in *.
  - by rewrite He.
  - rewrite He1. simpl. apply IH.
Qed.

(** X14: evaluation of a text is all or nothing and runs from left to
    right: when the expression spans before [e] evaluate and [e] fails,
    [interpret] fails with the failure of [e], whatever follows [e] (the
    spans after it are not evaluated and nothing of the output is
    returned). *)
Theorem first_failing_span_fails_the_text (interpreter : bound)
    (context : Context) (val : text -> text) (x : exn)
    (l0 e l : text) (els1 els2 : list (text * text)) :
  count SEC l0 = 0 ->
  Forall sec_free (els1 ++ (e, l) :: els2) ->
  Forall (fun el =>
            parse (fun v args => interpreter v context args) el.1
            = Ok (val el.1)) els1 ->
  parse (fun v args => interpreter v context args) e = Err x ->
  interpret_with interpreter context
    (spans_text l0 (els1 ++ (e, l) :: els2))
  = Err x.
Proof.
  intros Hl0 Hfree Hval He. unfold interpret_with.
  rewrite split_spans_text by done.
  by rewrite (interpret_loop_first_error _ val x).
Qed.

Lemma first_failing_span_fails_the_text_witness :
  interpret 1 Interpreter root
    (u "a" ++ SEC :: u "sec()" ++ SEC :: u "b" ++ SEC :: u "include(k)"
       ++ SEC :: u "c" ++ SEC :: u "nosuch()" ++ SEC :: u "d")
  = Err KeyError.
Proof.
  apply (first_failing_span_fails_the_text (invoke 1 Interpreter) root
           (fun _ => [SEC]) KeyError (u "a") (u "include(k)") (u "c")
           [(u "sec()", u "b")] [(u "nosuch()", u "d")]).
  - reflexivity.
  - by repeat constructor.
  - by repeat constructor.
  - reflexivity.
Defined.

Lemma split_nonempty (sep : char) (s : text) :
  exists p ps, split sep s = p :: ps.
Proof. unfold split. destruct (split1 sep s) as [p ps]. by exists p, ps. Qed.

Lemma split_cons_sep (sep : char) (s : text) :
  split sep (sep :: s) = [] :: split sep s.
Proof.
  unfold split. simpl. rewrite N.eqb_refl. by destruct (split1 sep s).
Qed.

Lemma split_cons_other (sep ch : char) (s p : text) (ps : list text) :
  ch <> sep -> split sep s = p :: ps ->
  split sep (ch :: s) = (ch :: p) :: ps.
Proof.
  unfold split. simpl. intros Hne%N.eqb_neq. rewrite Hne.
  destruct (split1 sep s) as [q qs]. by intros [= -> ->].
Qed.

(** The pieces of [s ++ t]: the last piece of [s] and the first piece of [t]
    are one piece. *)
Lemma split_app (sep : char) (s t : text) :
  forall (xs : list text) (lx q : text) (qs : list text),
    split sep s = xs ++ [lx] -> split sep t = q :: qs ->
    split sep (s ++ t) = xs ++ (lx ++ q) :: qs.
Proof.
  induction s as [| ch s IH]; intros xs lx q qs Hs Ht.
  - change (split sep []) with [[] : text] in Hs.
    destruct xs as [| x [| x' xs]]; simplify_eq/=. done.
  - destruct (split_nonempty sep s) as (p & ps & Hsplit).
    destruct (decide (ch = sep)) as [-> | Hne].
    + rewrite split_cons_sep, Hsplit in Hs.
      destruct xs as [| x xs]; simplify_eq/=.
      rewrite split_cons_sep. f_equal. apply IH; [congruence | done].
    + rewrite (split_cons_other sep ch s p ps Hne Hsplit) in Hs.
      destruct xs as [| x xs]; simplify_eq/=.
      * rewrite (split_cons_other sep ch (s ++ t) (p ++ q) qs Hne);
          [done |]. by apply (IH []).
      * rewrite (split_cons_other sep ch (s ++ t) p (xs ++ (lx ++ q) :: qs)
                   Hne); [done |].
        by apply (IH (p :: xs)).
Qed.

Lemma interpret_loop_app_even (f : text -> result text)
    (xs rest output : list text) :
  Nat.even (length xs) = true ->
  interpret_loop f (xs ++ rest) output
  = (o ← interpret_loop f xs output; interpret_loop f rest o).
Proof.
  revert output.
  induction xs as [xs IH] using (induction_ltof1 _ (@length text)).
  unfold ltof in IH. intros output Heven.
  destruct xs as [| lit [| expr xs]]; [done | done |].
  change (interpret_loop f ((lit :: expr :: xs) ++ rest) output)
    with (r ← f expr; interpret_loop f (xs ++ rest) ((output ++ [lit]) ++ [r])).
  change (interpret_loop f (lit :: expr :: xs) output)
    with (r ← f expr; interpret_loop f xs ((output ++ [lit]) ++ [r])).
  destruct (f expr) as [r | x]; simpl; [| done].
  apply IH; [simpl; lia | done].
Qed.

Lemma interpret_loop_output (f : text -> result text) (it output : list text) :
  interpret_loop f it output
  = (o ← interpret_loop f it []; Ok (output ++ o)).
Proof.
  revert output.
  induction it as [it IH] using (induction_ltof1 _ (@length text)).
  unfold ltof in IH. intros output.
  destruct it as [| lit [| expr it]];
    [simpl; by rewrite app_nil_r | done |].
  change (interpret_loop f (lit :: expr :: it) output)
    with (r ← f expr; interpret_loop f it ((output ++ [lit]) ++ [r])).
  change (interpret_loop f (lit :: expr :: it) [])
    with (r ← f expr; interpret_loop f it (([] ++ [lit]) ++ [r])).
  destruct (f expr) as [r | x]; simpl; [| done].
  assert (length it < length (lit :: expr :: it)) as Hlt by (simpl; lia).
  rewrite (IH it Hlt ((output ++ [lit]) ++ [r])).
  rewrite (IH it Hlt [lit; r]).
  destruct (interpret_loop f it []) as [o | x]; simpl; [| done].
  by rewrite <- !app_assoc.
Qed.

Lemma interpret_loop_first_literal (f : text -> result text)
    (lit lit' : text) (it : list text) :
  (o ← interpret_loop f ((lit ++ lit') :: it) []; Ok (concat o))
  = (o ← interpret_loop f (lit' :: it) []; Ok (lit ++ concat o)).
Proof.
  destruct it as [| expr it]; [simpl; by rewrite <- app_assoc |].
  change (interpret_loop f ((lit ++ lit') :: expr :: it) [])
    with (r ← f expr; interpret_loop f it [lit ++ lit'; r]).
  change (interpret_loop f (lit' :: expr :: it) [])
    with (r ← f expr; interpret_loop f it [lit'; r]).
  destruct (f expr) as [r | x]; simpl; [| done].
  rewrite (interpret_loop_output f it [lit ++ lit'; r]).
  rewrite (interpret_loop_output f it [lit'; r]).
  destruct (interpret_loop f it []) as [o | x]; simpl; [| done].
  by rewrite <- !app_assoc.
Qed.

(** X15: [interpret] distributes over concatenation at a point where the
    delimiters before it are paired: if [t1] has an even number of
    delimiters, [t1 ++ t2] evaluates to the output of [t1] followed by the
    output of [t2], and fails with the first failure of the two. *)
Theorem interpret_distributes_over_concatenation (interpreter : bound)
    (context : Context) (t1 t2 : text) :
  Nat.even (count SEC t1) = true ->
  interpret_with interpreter context (t1 ++ t2)
  = (out1 ← interpret_with interpreter context t1;
     out2 ← interpret_with interpreter context t2;
     Ok (out1 ++ out2)).
Proof.
  intros Heven. unfold interpret_with.
  set (f := fun expr => parse (fun v args => interpreter v context args) expr).
  destruct (split_nonempty SEC t2) as (q & qs & Ht2).
  assert (exists xs lx, split SEC t1 = xs ++ [lx]) as (xs & lx & Ht1).
  { destruct (split_nonempty SEC t1) as (p & ps & Hp). rewrite Hp.
    destruct (exists_last (l := p :: ps)) as (xs & lx & ->); [done |].
    by exists xs, lx. }
  assert (Nat.even (length xs) = true) as Hxs.
  { pose proof (length_split SEC t1) as Hlen.
    rewrite Ht1, length_app in Hlen. simpl in Hlen.
    by replace (length xs) with (count SEC t1) by lia. }
  rewrite (split_app SEC t1 t2 xs lx q qs Ht1 Ht2), Ht1, Ht2.
  rewrite !interpret_loop_app_even by done.
  destruct (interpret_loop f xs []) as [o1 | x];
    cbn [mbind result_bind]; [| done].
  change (interpret_loop f [lx] o1) with (Ok (o1 ++ [lx]) : result (list text)).
  cbn [mbind result_bind].
  rewrite (interpret_loop_output f ((lx ++ q) :: qs) o1).
  pose proof (interpret_loop_first_literal f lx q qs) as Hlit.
  destruct (interpret_loop f ((lx ++ q) :: qs) []) as [o | x];
    destruct (interpret_loop f (q :: qs) []) as [o' | x'];
    cbn [mbind result_bind] in *; simplify_eq; [| done].
  rewrite !concat_app. simpl. rewrite app_nil_r.
  by rewrite Hlit, app_assoc.
Qed.

Lemma interpret_distributes_over_concatenation_witness :
  interpret 1 Interpreter root
    ((u "a" ++ SEC :: u "sec()" ++ SEC :: u "b") ++ (u "c" ++ SEC :: u "x"))
  = Ok (u "a" ++ SEC :: u "b" ++ u "cx").
Proof.
  unfold interpret.
  rewrite (interpret_distributes_over_concatenation (invoke 1 Interpreter)
             root (u "a" ++ SEC :: u "sec()" ++ SEC :: u "b")
             (u "c" ++ SEC :: u "x"));
    reflexivity.
Defined.

(** ** Operations called from a text *)

(** The text "§h(a1, ..., an, last)§" is one call of the operation [h]. *)
Lemma interpret_flat_call (d : nat) (cls : class) (context : Context)
    (h last : text) (atoms : list text) :
  is_atomic h = true ->
  Forall (fun a => is_atomic a = true) atoms ->
  is_atomic last = true ->
  count SEC (h ++ LPAREN :: flat atoms ++ last ++ [RPAREN]) = 0 ->
  interpret d cls context
    (SEC :: (h ++ LPAREN :: flat atoms ++ last ++ [RPAREN]) ++ [SEC])
  = invoke d cls (strip h) context (map strip atoms ++ last_arg last).
Proof.
  intros Hh Hatoms Hlast Hsec. unfold interpret.
  change (SEC :: (h ++ LPAREN :: flat atoms ++ last ++ [RPAREN]) ++ [SEC])
    with ([] ++ SEC :: (h ++ LPAREN :: flat atoms ++ last ++ [RPAREN])
            ++ SEC :: []).
  rewrite interpret_with_one_span by done.
  rewrite (parse_flat _ h last [RPAREN] atoms) by done.
  destruct (invoke d cls (strip h) context _); simpl;
    [by rewrite app_nil_r | done].
Qed.

(** X16: a built-in operation called with the wrong number of arguments
    fails with TypeError: [sec] with any argument, and [include],
    [include_conditional] and [var] with none or with more than one. *)
Theorem builtin_called_with_wrong_arity (d : nat) (context : Context)
    (last : text) (atoms : list text) :
  Forall (fun a => is_atomic a = true) atoms ->
  is_atomic last = true ->
  count SEC (flat atoms ++ last) = 0 ->
  let call name :=
    interpret (S d) Interpreter context
      (SEC :: (name ++ LPAREN :: flat atoms ++ last ++ [RPAREN]) ++ [SEC]) in
  let n := length (map strip atoms ++ last_arg last) in
  (n <> 0 -> call (u "sec") = Err TypeError) /\
  (n <> 1 ->
   call (u "include") = Err TypeError /\
   call (u "include_conditional") = Err TypeError /\
   call (u "var") = Err TypeError).
Proof.
  intros Hatoms Hlast Hsec call n. subst call.
  assert (forall name, count SEC name = 0 ->
            count SEC (name ++ LPAREN :: flat atoms ++ last ++ [RPAREN]) = 0)
    as Hcount.
  { intros name Hname. rewrite count_app, Hname. cbn [count].
    change (LPAREN =? SEC)%N with false. cbn iota.
    rewrite app_assoc, count_app, Hsec. reflexivity. }
  split; intros Hn; [| split; [| split]].
  all: rewrite interpret_flat_call by (done || by apply Hcount).
  all: subst n.
  all: destruct (map strip atoms ++ last_arg last) as [| a [| b args]];
    done.
Qed.

Lemma builtin_called_with_wrong_arity_witness :
  interpret 1 Interpreter example_parent (SEC :: u "sec(x)" ++ [SEC])
  = Err TypeError /\
  interpret 1 Interpreter example_parent (SEC :: u "var(title,lang)" ++ [SEC])
  = Err TypeError.
Proof.
  split.
  - apply (builtin_called_with_wrong_arity 0 example_parent (u "x") []);
      [constructor | reflexivity | reflexivity | discriminate].
  - apply (builtin_called_with_wrong_arity 0 example_parent (u "lang")
             [u "title"]);
      [by repeat constructor | reflexivity | reflexivity | discriminate].
Defined.

(** ** MyInterpreter *)

(** X17: "§localize(de, en)§" evaluates to its first argument when the
    context binds "lang" to "de" and to its second when it binds it to
    "en"; it fails with KeyError when "lang" is bound to anything else or is
    not bound in the chain. *)
Theorem localize_selects_by_language (d : nat) (cls : class)
    (context : Context) (de en : text) :
  cls (u "localize") = Some MyInterpreter.localize ->
  is_atomic de = true -> is_atomic en = true -> en <> [] ->
  count SEC de = 0 -> count SEC en = 0 ->
  let r := interpret (S d) cls context
             (SEC :: (u "localize" ++ LPAREN :: flat [de] ++ en ++ [RPAREN])
                ++ [SEC]) in
  (get context (u "lang") = Ok (u "de") -> r = Ok (strip de)) /\
  (get context (u "lang") = Ok (u "en") -> r = Ok (strip en)) /\
  (forall lang, get context (u "lang") = Ok lang ->
                lang <> u "de" -> lang <> u "en" -> r = Err KeyError) /\
  (get context (u "lang") = Err KeyError -> r = Err KeyError).
Proof.
  intros Hcls Hde Hen Hne Hsde Hsen r. subst r.
  rewrite interpret_flat_call; [| done | by repeat constructor | done |].
  - change (strip (u "localize")) with (u "localize").
    rewrite invoke_S, Hcls. simpl. rewrite last_arg_nonempty by done.
    simpl. unfold MyInterpreter.LANG_TO_PROJ.
    split; [| split; [| split]].
    + by intros ->.
    + by intros ->.
    + intros lang -> Hnde Hnen. simpl. by rewrite !decide_False.
    + by intros ->.
  - unfold flat. simpl. rewrite <- app_assoc, !count_app, Hsde, Hsen.
    reflexivity.
Qed.

Lemma localize_selects_by_language_witness :
  interpret 1 (Localizing example_dic) example_child
    (SEC :: u "localize(Startseite, Home page)" ++ [SEC])
  = Ok (u "Home page") /\
  interpret 1 (Localizing example_dic) root
    (SEC :: u "localize(Startseite, Home page)" ++ [SEC])
  = Err KeyError.
Proof.
  destruct (localize_selects_by_language 0 (Localizing example_dic)
              example_child (u "Startseite") (u " Home page"))
    as (_ & Hen & _);
    [reflexivity | reflexivity | reflexivity | discriminate
     | reflexivity | reflexivity |].
  destruct (localize_selects_by_language 0 (Localizing example_dic)
              root (u "Startseite") (u " Home page"))
    as (_ & _ & _ & Hnone);
    [reflexivity | reflexivity | reflexivity | discriminate
     | reflexivity | reflexivity |].
  split; [apply Hen | apply Hnone]; reflexivity.
Defined.

(** X18: "§dic(key)§" evaluates to the entry for the key in the dictionary
    of the language that the context binds to "lang"; it fails with KeyError
    when "lang" is not bound, when there is no dictionary for the language,
    and when the dictionary has no entry for the key. *)
Theorem dic_looks_up_language_dictionary (d : nat) (cls : class)
    (dic_ : gmap text (gmap text text)) (context : Context) (key : text) :
  cls (u "dic") = Some (MyInterpreter.dic dic_) ->
  key <> [] -> is_atomic key = true -> count SEC key = 0 ->
  interpret (S d) cls context (call_text (u "dic") key)
  = match visible context !! u "lang" with
    | None => Err KeyError
    | Some lang =>
        match dic_ !! lang ≫= (.!! strip key) with
        | None => Err KeyError
        | Some v => Ok v
        end
    end.
Proof.
  intros Hcls Hne Hkey Hsec. unfold call_text.
  rewrite interpret_call by done. rewrite bind_Ok_id.
  change (strip (u "dic")) with (u "dic").
  rewrite invoke_S, Hcls. unfold MyInterpreter.dic.
  rewrite get_visible.
  destruct (visible context !! u "lang") as [lang |]; simpl; [| done].
  by destruct (dic_ !! lang).
Qed.

Lemma dic_looks_up_language_dictionary_witness :
  interpret 1 (Localizing example_dic) example_child
    (call_text (u "dic") (u "may")) = Ok (u "May") /\
  interpret 1 (Localizing example_dic) example_parent
    (call_text (u "dic") (u "may")) = Ok (u "Mai") /\
  interpret 1 (Localizing example_dic) example_parent
    (call_text (u "dic") (u "june")) = Err KeyError.
Proof.
  split; [| split].
  - rewrite (dic_looks_up_language_dictionary 0 _ example_dic);
      [reflexivity | reflexivity | discriminate | reflexivity | reflexivity].
  - rewrite (dic_looks_up_language_dictionary 0 _ example_dic);
      [reflexivity | reflexivity | discriminate | reflexivity | reflexivity].
  - rewrite (dic_looks_up_language_dictionary 0 _ example_dic);
      [reflexivity | reflexivity | discriminate | reflexivity | reflexivity].
Defined.

(** ** The parser produces a result *)

Lemma parse_collect_no_exhaustion
    (dispatch : text -> list text -> result text) (e : text) (n : nat) :
  (forall v args, dispatch v args <> Err RecursionError) ->
  forall idx, length e - idx <= n ->
    (forall k, 2 * n + 1 <= k ->
       parse_at dispatch e k idx <> Err RecursionError) /\
    (forall k args, 2 * n + 2 <= k ->
       collect dispatch e k idx args <> Err RecursionError).
Proof.
  intros Hd. induction n as [| n IH]; intros idx Hidx.
  - split.
    + intros [| k] Hk; [lia |]. rewrite parse_at_S.
      pose proof (scan_ge e idx).
      by rewrite (proj2 (lookup_ge_None e (scan e idx))) by lia.
    + intros [| k] args Hk; [lia |]. rewrite collect_S.
      by rewrite (proj2 (lookup_ge_None e idx)) by lia.
  - assert (forall k, 2 * S n + 1 <= k ->
              parse_at dispatch e k idx <> Err RecursionError) as Hparse.
    { intros [| k] Hk; [lia |]. rewrite parse_at_S.
      pose proof (scan_ge e idx).
      destruct (e !! scan e idx) as [ch |] eqn:Hi; [| done].
      apply lookup_lt_Some in Hi.
      destruct (ch =? COMMA)%N; [done |].
      destruct (ch =? RPAREN)%N; [done |].
      destruct (IH (S (scan e idx))) as [_ Hc]; [lia |].
      specialize (Hc k [] ltac:(lia)).
      destruct (collect dispatch e k (S (scan e idx)) [])
        as [[args idx'] | x]; simpl; [| congruence].
      specialize (Hd (strip (slice e idx (scan e idx))) args).
      destruct (dispatch _ args); simpl; congruence. }
    split; [done |].
    intros [| k] args Hk; [lia |]. rewrite collect_S.
    destruct (e !! idx) as [ch |] eqn:Hi; [| done].
    destruct (N.eqb_spec ch RPAREN) as [| Hne]; [done |].
    specialize (Hparse k ltac:(lia)).
    destruct (parse_at dispatch e k idx) as [[a idx1] |] eqn:Hp;
      simpl; [| congruence].
    destruct (parse_collect_progress dispatch e k) as [Hprog _].
    apply Hprog in Hp as [_ Hlt]. specialize (Hlt ch Hi Hne).
    apply lookup_lt_Some in Hi.
    destruct (IH idx1) as [_ Hc]; [lia |].
    apply Hc; lia.
Qed.

(** X13: the loops of [parse()] always end and [parse()] produces a result.
    The budget that [parse] gives to [parse_at] is never used up: unless an
    operation that it calls fails with RecursionError, [parse] returns a
    value or fails with another exception, and every larger budget gives
    the same result. *)
Theorem parse_never_uses_up_its_budget
    (dispatch : text -> list text -> result text) (e : text) :
  (forall v args, dispatch v args <> Err RecursionError) ->
  parse dispatch e <> Err RecursionError /\
  (forall k, 2 * length e + 1 <= k ->
     parse_at dispatch e k 0 <> Err RecursionError /\
     parse_at dispatch e k 0 = parse_at dispatch e (2 * length e + 1) 0).
Proof.
  intros Hd.
  destruct (parse_collect_no_exhaustion dispatch e (length e) Hd 0)
    as [Hp _]; [lia |].
  split.
  - unfold parse. specialize (Hp (2 * length e + 1) ltac:(lia)).
    destruct (parse_at dispatch e (2 * length e + 1) 0) as [[v idx'] | x];
      simpl; congruence.
  - intros k Hk. split; [by apply Hp |]. by apply parse_at_budget.
Qed.

Lemma parse_never_uses_up_its_budget_witness :
  parse record (u "f(g(a),b)") <> Err RecursionError.
Proof.
  apply (parse_never_uses_up_its_budget record (u "f(g(a),b)")).
  intros v args. discriminate.
Defined.
